(** * Cube-to-clause conversion (examples/pyeda/python_code/common.py)

    A shallow embedding of [backdoor_to_clauses] and of the functions it
    calls.  The Boolean-algebra engine (pyeda's [exprvar], [And], [Or], [~],
    [is_dnf], [is_cnf], [to_cnf], [encode_cnf]) and the minimizer
    ([espresso_exprs]) are libraries the program imports: they appear here as
    two interfaces, and what is assumed about them is stated in two classes
    of laws.  Python exceptions are values of type [exn]; the calls made to
    the collaborators are recorded, in order, in a log.  A reference engine
    that satisfies the laws runs the pipeline on concrete batches. *)

From Stdlib Require Import ZArith String List Bool Lia Sorted Permutation.
From stdpp Require Import base countable strings gmap list.
Import ListNotations.
Local Open Scope Z_scope.
Local Unset Default Proof Using.

(** * The program and the notions used to state its properties *)

(** ** Helpers of the source *)

Definition bool2int (b : bool) : Z := if b then 1 else 0.

Definition bool2sign (b : bool) : Z := if b then -1 else 1.

Definition signed (x : Z) (s : bool) : Z := bool2sign s * x.

(** ** Exceptions *)

(** [(min_dnf,) = ...] fails with a [ValueError] whose text depends on the
    direction of the mismatch. *)
Inductive unpack_error :=
| NotEnoughValues (got : nat)   (* not enough values to unpack (expected 1, got 0) *)
| TooManyValues.                (* too many values to unpack (expected 1) *)

(** The exceptions the pipeline can raise.  An [assert] with a message
    carries it; the only one in the source is
    [f"cube={cube}, vars={variables}"], kept as the pair (cube, variables). *)
Inductive exn :=
| IndexError
| AssertionError (msg : option (list Z * list Z))
| ValueError (u : unpack_error)
| KeyError (k : Z)
| AttributeError.

(** The input-contract violation is the assertion of [cubes_to_dnf] that
    names the offending cube. *)
Definition is_contract_violation (e : exn) : bool :=
  match e with
  | AssertionError (Some _) => true
  | _ => false
  end.

(** ** The two collaborators *)

(** What the program uses of pyeda's expressions.  [encode_cnf] returns the
    literal map restricted to its integer keys (the only ones the program
    reads), the number of variables and the clauses in the order in which
    iteration yields them.  [indices] is the attribute of that name, absent
    ([None]) on expressions that are not variables. *)
Class BoolAlg := {
  expr : Type;
  exprvar : string -> Z -> expr;
  Not : expr -> expr;
  And : list expr -> expr;
  Or : list expr -> expr;
  is_dnf : expr -> bool;
  is_cnf : expr -> bool;
  to_cnf : expr -> expr;
  encode_cnf : expr -> gmap Z expr * nat * list (list Z);
  indices : expr -> option (list Z);
}.

(** [espresso_exprs] is variadic: it takes a tuple of expressions and
    returns a tuple of expressions. *)
Class Minimizer (E : BoolAlg) := {
  espresso_exprs : list expr -> list expr;
}.

(** ** Calls and the monad of the pipeline *)

Inductive event {E : BoolAlg} :=
| CallExprvar (name : string) (index : Z)
| CallEspresso (args : list expr)
| CallToCnf (e : expr)
| CallEncodeCnf (e : expr).

(** A computation yields the calls it made and either an exception or a
    value. *)
Definition M {E : BoolAlg} (A : Type) : Type := (list event * (exn + A))%type.

Definition ret {E : BoolAlg} {A} (a : A) : M A := ([], inr a).

Definition raise {E : BoolAlg} {A} (e : exn) : M A := ([], inl e).

Definition tell {E : BoolAlg} (ev : event) : M unit := ([ev], inr tt).

Definition bind {E : BoolAlg} {A B} (m : M A) (f : A -> M B) : M B :=
  match m with
  | (l, inl e) => (l, inl e)
  | (l, inr a) => let (l', r) := f a in (l ++ l', r)
  end.

Declare Scope pipeline_scope.
Delimit Scope pipeline_scope with pipe.
Notation "'let*' x := c 'in' k" := (bind c (fun x => k))
  (at level 10, x name, c at level 100, k at level 200) : pipeline_scope.
Notation "'let*' ' pat := c 'in' k" := (bind c (fun x => match x with pat => k end))
  (at level 10, pat pattern, c at level 100, k at level 200) : pipeline_scope.
Notation "'run' c 'in' k" := (bind c (fun _ => k))
  (at level 10, c at level 100, k at level 200) : pipeline_scope.
Local Open Scope pipeline_scope.

Definition calls {E : BoolAlg} {A} (m : M A) : list event := fst m.
Definition outcome {E : BoolAlg} {A} (m : M A) : exn + A := snd m.

Section Pipeline.
Context {E : BoolAlg} {O : Minimizer E}.

(** [for x in l: body] *)
Fixpoint for_each {A} (l : list A) (body : A -> M unit) : M unit :=
  match l with
  | [] => ret tt
  | x :: l' => run body x in for_each l' body
  end.

(** [for x in l: body], the body updating the local variables [s] *)
Fixpoint for_acc {A S} (l : list A) (s : S) (body : S -> A -> M S) : M S :=
  match l with
  | [] => ret s
  | x :: l' => let* s' := body s x in for_acc l' s' body
  end.

Definition py_assert (b : bool) (msg : option (list Z * list Z)) : M unit :=
  if b then ret tt else raise (AssertionError msg).

(** [l[i]] on a list or tuple *)
Definition getitem {A} (l : list A) (i : nat) : M A :=
  match nth_error l i with
  | Some x => ret x
  | None => raise IndexError
  end.

(** [d[k]] on a dict *)
Definition dict_getitem (d : gmap Z expr) (k : Z) : M expr :=
  match d !! k with
  | Some h => ret h
  | None => raise (KeyError k)
  end.

Definition get_indices (h : expr) : M (list Z) :=
  match indices h with
  | Some t => ret t
  | None => raise AttributeError
  end.

Definition call_exprvar (name : string) (index : Z) : M expr :=
  run tell (CallExprvar name index) in ret (exprvar name index).

Definition call_espresso (args : list expr) : M (list expr) :=
  run tell (CallEspresso args) in ret (espresso_exprs args).

Definition call_to_cnf (e : expr) : M expr :=
  run tell (CallToCnf e) in ret (to_cnf e).

Definition call_encode_cnf (e : expr) : M (gmap Z expr * nat * list (list Z)) :=
  run tell (CallEncodeCnf e) in ret (encode_cnf e).

(** [(x,) = t] *)
Definition unpack1 {A} (t : list A) : M A :=
  match t with
  | [] => raise (ValueError (NotEnoughValues 0))
  | [x] => ret x
  | _ :: _ :: _ => raise (ValueError TooManyValues)
  end.

(** *** cubes_to_dnf *)

Definition magnitudes (cube : list Z) : list Z := map Z.abs cube.

(** Body of the inner loop, lines 38-45: the locals are [var_map] and
    [lits_expr]. *)
Definition encode_lit (st : gmap Z expr * list expr) (lit : Z)
  : M (gmap Z expr * list expr) :=
  let (var_map, lits_expr) := st in
  let var := Z.abs lit in
  let* var_map :=
    match var_map !! var with
    | None => let* h := call_exprvar "x" var in ret (<[var := h]> var_map)
    | Some _ => ret var_map
    end in
  let* h := dict_getitem var_map var in
  ret (var_map, lits_expr ++ [if lit <? 0 then Not h else h]).

(** Body of the outer loop, lines 36-46: the locals are [var_map] and
    [cubes_expr]. *)
Definition encode_cube (st : gmap Z expr * list expr) (cube : list Z)
  : M (gmap Z expr * list expr) :=
  let (var_map, cubes_expr) := st in
  let* '(var_map, lits_expr) := for_acc cube (var_map, []) encode_lit in
  ret (var_map, cubes_expr ++ [And lits_expr]).

(** Lines 33-46. *)
Definition encode_cubes (cubes : list (list Z)) : M (gmap Z expr * list expr) :=
  for_acc cubes (∅, []) encode_cube.

(** Lines 28-30. *)
Definition check_cubes (cubes : list (list Z)) : M unit :=
  let* first := getitem cubes 0 in
  let variables := magnitudes first in
  for_each cubes (fun cube =>
    py_assert (bool_decide (variables = magnitudes cube)) (Some (cube, variables))).

Definition cubes_to_dnf (cubes : list (list Z)) : M expr :=
  run check_cubes cubes in
  let* '(var_map, cubes_expr) := encode_cubes cubes in
  let dnf := Or cubes_expr in
  run py_assert (is_dnf dnf) None in
  ret dnf.

(** *** minimize_dnf *)

Definition minimize_dnf (dnf : expr) : M (list expr) :=
  call_espresso [dnf].

(** *** cnf_to_clauses *)

(** Python's [list.sort(key=...)] is stable and compares keys with [<]
    only; a stable sort has one possible result, here computed by
    insertion. *)
Section Sort.
Context {A K : Type} (ltb : K -> K -> bool) (key : A -> K).

Fixpoint insert_by (x : A) (l : list A) : list A :=
  match l with
  | [] => [x]
  | y :: l' => if ltb (key y) (key x) then y :: insert_by x l' else x :: l
  end.

Fixpoint sort_by (l : list A) : list A :=
  match l with
  | [] => []
  | x :: l' => insert_by x (sort_by l')
  end.
End Sort.

(** [<] on tuples of integers *)
Fixpoint tuple_ltb (s t : list Z) : bool :=
  match s, t with
  | [], [] => false
  | [], _ :: _ => true
  | _ :: _, [] => false
  | x :: s', y :: t' =>
      if x =? y then tuple_ltb s' t' else x <? y
  end.

(** [(len(x), tuple(map(abs, x)))] and [<] on such pairs *)
Definition clause_key (x : list Z) : nat * list Z := (length x, map Z.abs x).

Definition key_ltb (k1 k2 : nat * list Z) : bool :=
  if (fst k1 =? fst k2)%nat then tuple_ltb (snd k1) (snd k2)
  else (fst k1 <? fst k2)%nat.

(** Body of the loop over the literals of a clause, lines 68-71. *)
Definition decode_lit (litmap : gmap Z expr) (c : list Z) (lit : Z) : M (list Z) :=
  let* h := dict_getitem litmap (Z.abs lit) in
  let* t := get_indices h in
  let* v := getitem t 0 in
  let s := lit <? 0 in
  ret (c ++ [signed v s]).

(** Body of the loop over the clauses, lines 66-73. *)
Definition decode_clause (litmap : gmap Z expr) (result : list (list Z))
    (clause : list Z) : M (list (list Z)) :=
  let* c := for_acc clause [] (decode_lit litmap) in
  let c := sort_by Z.ltb Z.abs c in
  ret (result ++ [c]).

Definition cnf_to_clauses (cnf : expr) : M (list (list Z)) :=
  run py_assert (is_cnf cnf) None in
  let* '(litmap, nvars, clauses) := call_encode_cnf cnf in
  let* result := for_acc clauses [] (decode_clause litmap) in
  ret (sort_by key_ltb clause_key result).

(** *** backdoor_to_clauses *)

Definition backdoor_to_clauses (easy : list (list Z)) : M (list (list Z)) :=
  let* dnf := cubes_to_dnf easy in
  let* t := minimize_dnf dnf in
  let* min_dnf := unpack1 t in
  let* min_cnf := call_to_cnf (Not min_dnf) in
  cnf_to_clauses min_cnf.

End Pipeline.

(** ** Notions used to state the properties *)

Section Accounts.
Context {E : BoolAlg} {O : Minimizer E}.

(** What a computation may raise. *)
Definition raises_only {A} (P : exn -> Prop) (m : M A) : Prop :=
  forall e, outcome m = inl e -> P e.

(** The first cube, in iteration order, whose magnitudes are not the
    list [variables]. *)
Definition first_mismatch (variables : list Z) (cubes : list (list Z))
  : option (list Z) :=
  List.find (fun cube => negb (bool_decide (variables = magnitudes cube))) cubes.

(** What lines 42-45 append for [lit] when [var_map[abs(lit)]] is
    [exprvar("x", abs(lit))]: the test is [lit < 0], so [0] takes the
    [else] branch. *)
Definition lit_expr (lit : Z) : expr :=
  if lit <? 0 then Not (exprvar "x" (Z.abs lit)) else exprvar "x" (Z.abs lit).

Definition cube_expr (cube : list Z) : expr := And (map lit_expr cube).

(** Every handle of the variable map is the variable named after its key. *)
Definition var_map_ok (var_map : gmap Z expr) : Prop :=
  forall v h, var_map !! v = Some h -> h = exprvar "x" v.

(** The variable map after a literal, and the calls made for it. *)
Definition alloc (var_map : gmap Z expr) (lit : Z) : gmap Z expr :=
  match var_map !! Z.abs lit with
  | None => <[Z.abs lit := exprvar "x" (Z.abs lit)]> var_map
  | Some _ => var_map
  end.

Definition alloc_calls (var_map : gmap Z expr) (lit : Z) : list event :=
  match var_map !! Z.abs lit with
  | None => [CallExprvar "x" (Z.abs lit)]
  | Some _ => []
  end.

Fixpoint lits_calls (var_map : gmap Z expr) (lits : list Z) : list event :=
  match lits with
  | [] => []
  | lit :: lits' => alloc_calls var_map lit ++ lits_calls (alloc var_map lit) lits'
  end.

Definition no_violation (e : exn) : Prop := is_contract_violation e = false.

(** Lines 21-24: what follows [cubes_to_dnf]. *)
Definition after_dnf (dnf : expr) : M (list (list Z)) :=
  let* t := minimize_dnf dnf in
  let* min_dnf := unpack1 t in
  let* min_cnf := call_to_cnf (Not min_dnf) in
  cnf_to_clauses min_cnf.

(** Lines 22-24: what follows the unpacking of the minimizer's result. *)
Definition after_min (min_dnf : expr) : M (list (list Z)) :=
  let* min_cnf := call_to_cnf (Not min_dnf) in
  cnf_to_clauses min_cnf.

(** What [decode_lit] appends for [lit]: the first index of the handle
    the literal map gives for [abs(lit)], signed by [lit < 0]. *)
Definition decoded (litmap : gmap Z expr) (lit out : Z) : Prop :=
  exists h v t, litmap !! Z.abs lit = Some h /\ indices h = Some (v :: t) /\
                out = signed v (lit <? 0).

Definition decoded_clause (litmap : gmap Z expr) (clause out : list Z) : Prop :=
  exists c, Forall2 (decoded litmap) clause c /\ out = sort_by Z.ltb Z.abs c.

(** The output literal [y] carries the variable id of the CNF literal
    [lit]: the literal map gives [abs(lit)] the handle [exprvar("x", v)]
    of a magnitude [v] of the batch, and [y] is [v] with the polarity of
    [lit]. *)
Definition carries_id (easy : list (list Z)) (litmap : gmap Z expr) (lit y : Z) : Prop :=
  exists v, litmap !! Z.abs lit = Some (exprvar "x" v) /\
            In v (magnitudes (concat easy)) /\
            y = signed v (lit <? 0) /\ Z.abs y = v /\
            (v <> 0 -> (y <? 0) = (lit <? 0)).

(** The output clause [out] is the CNF clause [clause] with every literal
    replaced, position by position, by one that carries its variable id,
    then sorted as [cnf_to_clauses] sorts a clause. *)
Definition carries_ids (easy : list (list Z)) (litmap : gmap Z expr)
    (clause out : list Z) : Prop :=
  exists c, Forall2 (carries_id easy litmap) clause c /\ out = sort_by Z.ltb Z.abs c.

End Accounts.

(** ** The canonical order of the output *)

(** [<] on tuples of integers, as Python compares them: at the first
    position where they differ, or by length when one is a prefix of the
    other. *)
Inductive tuple_lt : list Z -> list Z -> Prop :=
| tuple_lt_nil y t : tuple_lt [] (y :: t)
| tuple_lt_head x y s t : x < y -> tuple_lt (x :: s) (y :: t)
| tuple_lt_tail x s t : tuple_lt s t -> tuple_lt (x :: s) (x :: t).

Definition tuple_le (s t : list Z) : Prop := s = t \/ tuple_lt s t.

(** Literals by ascending absolute value. *)
Definition lit_le (a b : Z) : Prop := Z.abs a <= Z.abs b.

(** Clauses by length, then by the tuple of absolute values. *)
Definition clause_le (c d : list Z) : Prop :=
  (length c < length d)%nat \/
  (length c = length d /\ tuple_le (map Z.abs c) (map Z.abs d)).

(** ** Meaning of cubes and clauses *)

(** An assignment gives a truth value to every variable id.  A literal is
    read the way the cube encoder reads it: negated when [lit < 0]. *)
Definition lit_holds (rho : Z -> bool) (lit : Z) : bool :=
  if lit <? 0 then negb (rho (Z.abs lit)) else rho (Z.abs lit).

Definition cube_holds (rho : Z -> bool) (cube : list Z) : bool :=
  forallb (lit_holds rho) cube.

Definition cubes_hold (rho : Z -> bool) (cubes : list (list Z)) : bool :=
  existsb (cube_holds rho) cubes.

Definition clause_holds (rho : Z -> bool) (clause : list Z) : bool :=
  existsb (lit_holds rho) clause.

Definition clauses_hold (rho : Z -> bool) (clauses : list (list Z)) : bool :=
  forallb (clause_holds rho) clauses.

(** Variables differ by name and index; the pipeline names them all ["x"],
    so an assignment of variable ids gives one of the engine's variables. *)
Definition env (rho : Z -> bool) : string -> Z -> bool := fun _ i => rho i.

(** The meaning of an integer literal of [encode_cnf], for [eval] the truth
    value of an expression under an assignment: the handle the literal map
    gives for its absolute value, negated when it is negative. *)
Definition engine_lit {E : BoolAlg} (eval : (string -> Z -> bool) -> expr -> bool)
    (rho : string -> Z -> bool) (litmap : gmap Z expr) (lit : Z) : bool :=
  match litmap !! Z.abs lit with
  | Some h => xorb (lit <? 0) (eval rho h)
  | None => false
  end.

(** What the pipeline needs of the meaning of expressions. *)
Class MeaningLaws {E : BoolAlg} {O : Minimizer E}
    (eval : (string -> Z -> bool) -> expr -> bool) : Prop := {
  (** the constructors mean what their names say *)
  eval_exprvar : forall rho n i, eval rho (exprvar n i) = rho n i;
  eval_Not : forall rho e, eval rho (Not e) = negb (eval rho e);
  eval_And : forall rho es, eval rho (And es) = forallb (eval rho) es;
  eval_Or : forall rho es, eval rho (Or es) = existsb (eval rho) es;
  (** the minimizer and the CNF conversion preserve equivalence *)
  espresso_equiv : forall d m,
    espresso_exprs [d] = [m] -> forall rho, eval rho m = eval rho d;
  to_cnf_equiv : forall rho e, eval rho (to_cnf e) = eval rho e;
  (** [encode_cnf] gives the clauses of the CNF it encodes *)
  encode_cnf_equiv : forall e rho,
    is_cnf e = true ->
    eval rho e =
    forallb (existsb (engine_lit eval rho (fst (fst (encode_cnf e))))) (snd (encode_cnf e));
}.

(** What the pipeline needs of the variables of expressions, for [support]
    the variables an expression mentions. *)
Class VariableLaws {E : BoolAlg} {O : Minimizer E}
    (support : expr -> list (string * Z)) : Prop := {
  (** no collaborator invents a variable *)
  support_exprvar : forall n i x, In x (support (exprvar n i)) -> x = (n, i);
  support_Not : forall e x, In x (support (Not e)) -> In x (support e);
  support_And : forall es x,
    In x (support (And es)) -> exists e, In e es /\ In x (support e);
  support_Or : forall es x,
    In x (support (Or es)) -> exists e, In e es /\ In x (support e);
  support_espresso : forall d m,
    espresso_exprs [d] = [m] -> forall x, In x (support m) -> In x (support d);
  support_to_cnf : forall e x, In x (support (to_cnf e)) -> In x (support e);
  (** the literal map sends the integer literals of the clauses to
      variables of the CNF *)
  encode_cnf_vars : forall e clause lit,
    is_cnf e = true -> In clause (snd (encode_cnf e)) -> In lit clause ->
    exists n i, fst (fst (encode_cnf e)) !! Z.abs lit = Some (exprvar n i) /\
                In (n, i) (support e);
  (** [exprvar(name, index).indices] is [(index,)] *)
  indices_exprvar : forall n i, indices (exprvar n i) = Some [i];
}.

(** Two cubes are over the same set of variables. *)
Definition same_magnitude_set (c d : list Z) : Prop :=
  forall v, In v (magnitudes c) <-> In v (magnitudes d).

(** ** Outcomes of the clause encoder, stages of the pipeline *)

Section Outcomes.
Context {E : BoolAlg}.

(** What lines 69-71 compute for one literal: the exception of the first
    step that fails ([litmap[abs(lit)]], [.indices], [[0]]), or the signed
    index. *)
Definition lit_result (litmap : gmap Z expr) (lit : Z) : exn + Z :=
  match litmap !! Z.abs lit with
  | None => inl (KeyError (Z.abs lit))
  | Some h =>
      match indices h with
      | None => inl AttributeError
      | Some [] => inl IndexError
      | Some (v :: _) => inr (signed v (lit <? 0))
      end
  end.

(** Lines 67-71 for the literals of a clause, in iteration order. *)
Fixpoint lits_result (litmap : gmap Z expr) (clause : list Z) : exn + list Z :=
  match clause with
  | [] => inr []
  | lit :: rest =>
      match lit_result litmap lit with
      | inl e => inl e
      | inr y =>
          match lits_result litmap rest with
          | inl e => inl e
          | inr ys => inr (y :: ys)
          end
      end
  end.

(** Lines 66-73 for the clauses, in iteration order. *)
Fixpoint clauses_result (litmap : gmap Z expr) (clauses : list (list Z))
  : exn + list (list Z) :=
  match clauses with
  | [] => inr []
  | clause :: rest =>
      match lits_result litmap clause with
      | inl e => inl e
      | inr c =>
          match clauses_result litmap rest with
          | inl e => inl e
          | inr cs => inr (sort_by Z.ltb Z.abs c :: cs)
          end
      end
  end.

(** A call that allocates a variable. *)
Definition is_alloc (ev : event) : Prop := exists v, ev = CallExprvar "x" v.

End Outcomes.

(** ** Two runs

    The engine keeps clauses and literals in sets, and does not promise the
    order in which [encode_cnf] lists the clauses, nor the literals of a
    clause: between two runs on the same CNF the lists can come in two
    orders.  A second run is a run on the same engine with other answers to
    [encode_cnf], and with the minimizer it is given. *)

Definition reemit (E : BoolAlg)
    (enc : @expr E -> gmap Z (@expr E) * nat * list (list Z)) : BoolAlg := {|
  expr := @expr E;
  exprvar := @exprvar E;
  Not := @Not E;
  And := @And E;
  Or := @Or E;
  is_dnf := @is_dnf E;
  is_cnf := @is_cnf E;
  to_cnf := @to_cnf E;
  encode_cnf := enc;
  indices := @indices E;
|}.

Definition same_minimizer {E : BoolAlg}
    (enc : @expr E -> gmap Z (@expr E) * nat * list (list Z))
    (O : Minimizer E) : Minimizer (reemit E enc) :=
  @Build_Minimizer (reemit E enc) (@espresso_exprs E O).





(** ** A reference engine

    A small engine and minimizer that meet the contract above, on which the
    pipeline can be run.  An expression is kept in one of the two normal
    forms, as a list of lists of literals; a literal is a variable with a
    polarity. *)

Module Reference.

Definition rvar : Type := string * Z.
Definition rlit : Type := rvar * bool.

Inductive rexpr :=
| Cnf (cs : list (list rlit))     (* a conjunction of disjunctions *)
| Dnf (ts : list (list rlit)).    (* a disjunction of conjunctions *)

Definition negate (l : rlit) : rlit := (fst l, negb (snd l)).

(** All the ways of taking one literal from each list: distribution of
    one connective over the other. *)
Fixpoint choose (ls : list (list rlit)) : list (list rlit) :=
  match ls with
  | [] => [[]]
  | c :: ls' => flat_map (fun l => map (cons l) (choose ls')) c
  end.

Definition as_cnf (e : rexpr) : list (list rlit) :=
  match e with Cnf cs => cs | Dnf ts => choose ts end.

Definition as_dnf (e : rexpr) : list (list rlit) :=
  match e with Dnf ts => ts | Cnf cs => choose cs end.

Definition body (e : rexpr) : list (list rlit) :=
  match e with Cnf cs => cs | Dnf ts => ts end.

Definition r_var (n : string) (i : Z) : rexpr := Cnf [[((n, i), true)]].

Definition r_not (e : rexpr) : rexpr :=
  match e with
  | Cnf cs => Dnf (map (map negate) cs)
  | Dnf ts => Cnf (map (map negate) ts)
  end.

Definition r_and (es : list rexpr) : rexpr := Cnf (concat (map as_cnf es)).

Definition r_or (es : list rexpr) : rexpr := Dnf (concat (map as_dnf es)).

(** A list of lists of literals reads as both forms when every inner
    list, or the outer list, has at most one element. *)
Definition flat (ls : list (list rlit)) : bool :=
  forallb (fun c => (length c <=? 1)%nat) ls || (length ls <=? 1)%nat.

Definition r_is_dnf (e : rexpr) : bool :=
  match e with Dnf _ => true | Cnf cs => flat cs end.

Definition r_is_cnf (e : rexpr) : bool :=
  match e with Cnf _ => true | Dnf ts => flat ts end.

Definition r_indices (e : rexpr) : option (list Z) :=
  match e with
  | Cnf [[((_, i), true)]] => Some [i]
  | _ => None
  end.

(** Integer literals: a variable is numbered by its code. *)
Definition var_code (v : rvar) : Z := Z.pos (encode v).

Definition enc_lit (l : rlit) : Z :=
  if snd l then var_code (fst l) else - var_code (fst l).

Definition vars (ls : list (list rlit)) : list rvar := map fst (concat ls).

Definition r_litmap (vs : list rvar) : gmap Z rexpr :=
  fold_right (fun v m => <[var_code v := r_var (fst v) (snd v)]> m) ∅ vs.

Definition r_encode_cnf (e : rexpr) : gmap Z rexpr * nat * list (list Z) :=
  let cs := as_cnf e in
  (r_litmap (vars cs), length (remove_dups (vars cs)), map (map enc_lit) cs).

#[global] Instance engine : BoolAlg := {|
  expr := rexpr;
  exprvar := r_var;
  Not := r_not;
  And := r_and;
  Or := r_or;
  is_dnf := r_is_dnf;
  is_cnf := r_is_cnf;
  to_cnf := fun e => Cnf (as_cnf e);
  encode_cnf := r_encode_cnf;
  indices := r_indices;
|}.

(** The minimizer that returns its arguments. *)
#[global] Instance minimizer : Minimizer engine := {|
  espresso_exprs := fun es => es;
|}.

Definition rlit_holds (rho : string -> Z -> bool) (l : rlit) : bool :=
  if snd l then rho (fst (fst l)) (snd (fst l))
  else negb (rho (fst (fst l)) (snd (fst l))).

Definition r_eval (rho : string -> Z -> bool) (e : rexpr) : bool :=
  match e with
  | Cnf cs => forallb (existsb (rlit_holds rho)) cs
  | Dnf ts => existsb (forallb (rlit_holds rho)) ts
  end.

Definition r_support (e : rexpr) : list (string * Z) := vars (body e).

(** Minimizers that break the single-result requirement. *)
Definition no_cover : Minimizer engine := {| espresso_exprs := fun _ => [] |}.

Definition two_covers : Minimizer engine := {| espresso_exprs := fun es => es ++ es |}.

(** The reference engine with shape tests that always fail, and with the
    DNF test alone passing. *)
Definition no_shape : BoolAlg := {|
  expr := rexpr;
  exprvar := r_var;
  Not := r_not;
  And := r_and;
  Or := r_or;
  is_dnf := fun _ => false;
  is_cnf := fun _ => false;
  to_cnf := fun e => Cnf (as_cnf e);
  encode_cnf := r_encode_cnf;
  indices := r_indices;
|}.

Definition no_cnf_shape : BoolAlg := {|
  expr := rexpr;
  exprvar := r_var;
  Not := r_not;
  And := r_and;
  Or := r_or;
  is_dnf := r_is_dnf;
  is_cnf := fun _ => false;
  to_cnf := fun e => Cnf (as_cnf e);
  encode_cnf := r_encode_cnf;
  indices := r_indices;
|}.

(** The reference engine with a literal map that has lost its handles. *)
Definition lost_handles : BoolAlg := {|
  expr := rexpr;
  exprvar := r_var;
  Not := r_not;
  And := r_and;
  Or := r_or;
  is_dnf := r_is_dnf;
  is_cnf := r_is_cnf;
  to_cnf := fun e => Cnf (as_cnf e);
  encode_cnf := fun e => (∅, 0%nat, map (map enc_lit) (as_cnf e));
  indices := r_indices;
|}.

Definition same_cover (E : BoolAlg) : Minimizer E := {| espresso_exprs := fun es => es |}.

(** [encode_cnf] of the reference engine with the clauses listed from the
    last to the first, and the literals of each clause likewise. *)
Definition r_encode_cnf_rev (e : rexpr) : gmap Z rexpr * nat * list (list Z) :=
  (fst (fst (r_encode_cnf e)), snd (fst (r_encode_cnf e)),
   rev (map (@rev Z) (snd (r_encode_cnf e)))).


End Reference.

(** ** Batches for the examples *)

(** The batch of the specification's example, a batch with ties between
    clause keys, a batch with a cube over other variables, a batch that the
    cover [x1 x2 + x2 x3] covers, a batch whose cubes list the same
    variables in two orders, and batches holding the literal 0. *)
Definition example_batch : list (list Z) := [[1; 2; -3]; [1; -2; 3]].
Definition ties_batch : list (list Z) := [[3; 1; -2]; [-3; 1; -2]; [-3; -1; -2]].
Definition mismatch_batch : list (list Z) := [[1; 2; 3]; [1; 2; 4]].
Definition reordered_batch : list (list Z) := [[1; 2]; [2; 1]].
Definition zero_batch : list (list Z) := [[0; 1]; [0; -1]].

(** * Properties *)

(** ** The monad: inversion of [bind] *)

Section MonadFacts.
Context {E : BoolAlg}.

Lemma bind_ok_inv {A B} (m : M A) (f : A -> M B) l b :
  bind m f = (l, inr b) ->
  exists l1 a l2, m = (l1, inr a) /\ f a = (l2, inr b) /\ l = l1 ++ l2.
Proof.
  destruct m as [l1 [e | a]]; simpl; [discriminate |].
  destruct (f a) as [l2 r] eqn:Hf. intros [= <- ->]. eauto 6.
Qed.

Lemma bind_ok {A B} (m : M A) (f : A -> M B) l a :
  m = (l, inr a) -> bind m f = (l ++ fst (f a), snd (f a)).
Proof. intros ->. simpl. now destruct (f a). Qed.

Lemma bind_assoc {A B C} (m : M A) (f : A -> M B) (g : B -> M C) :
  bind (bind m f) g = bind m (fun x => bind (f x) g).
Proof.
  destruct m as [l [e | a]]; simpl; [reflexivity |].
  destruct (f a) as [l2 [e2 | b]]; simpl; [reflexivity |].
  destruct (g b). now rewrite app_assoc.
Qed.

Lemma bind_ret_l {A B} (a : A) (f : A -> M B) : bind (ret a) f = f a.
Proof. simpl. now destruct (f a). Qed.

Lemma for_acc_cons {A S} (x : A) (l : list A) (s : S) (body : S -> A -> M S) :
  for_acc (x :: l) s body = bind (body s x) (fun s' => for_acc l s' body).
Proof. reflexivity. Qed.

Lemma raises_only_bind {A B} P (m : M A) (f : A -> M B) :
  raises_only P m -> (forall a, raises_only P (f a)) -> raises_only P (bind m f).
Proof.
  intros Hm Hf e. destruct m as [l [e1 | a]]; simpl.
  - intros [= <-]. now apply Hm.
  - specialize (Hf a e). unfold outcome in Hf. destruct (f a) as [l2 r]. exact Hf.
Qed.

Lemma raises_only_for_acc {A S} P (body : S -> A -> M S) (l : list A) :
  (forall s x, raises_only P (body s x)) ->
  forall s, raises_only P (for_acc l s body).
Proof.
  intros Hb. induction l as [| x l IH]; intros s; simpl.
  - intros e [=].
  - apply raises_only_bind; auto.
Qed.

(** A loop whose body appends one value to the accumulator, related to the
    element by [R], maps the list through [R]. *)
Lemma for_acc_append_ok {A B} (R : A -> B -> Prop) (body : list B -> A -> M (list B))
    (l : list A) :
  (forall acc x lx out, body acc x = (lx, inr out) -> exists y, out = acc ++ [y] /\ R x y) ->
  forall acc lg out,
    for_acc l acc body = (lg, inr out) ->
    exists ys, out = acc ++ ys /\ Forall2 R l ys.
Proof.
  intros Hb. induction l as [| x l IH]; intros acc lg out; simpl.
  - intros [= <- <-]. exists []. rewrite app_nil_r. split; [reflexivity | constructor].
  - intros H. apply bind_ok_inv in H as (l1 & s' & l2 & H1 & H2 & ->).
    apply Hb in H1 as (y & -> & Hy).
    apply IH in H2 as (ys & -> & HF).
    exists (y :: ys). rewrite <- app_assoc. split; [reflexivity |].
    constructor; eauto.
Qed.
End MonadFacts.

(** ** The consistency check of [cubes_to_dnf] *)

Section Check.
Context {E : BoolAlg}.

Lemma assert_loop_spec (variables : list Z) (cubes : list (list Z)) :
  for_each cubes (fun cube =>
    py_assert (bool_decide (variables = magnitudes cube)) (Some (cube, variables)))
  = match first_mismatch variables cubes with
    | Some cube => ([], inl (AssertionError (Some (cube, variables))))
    | None => ([], inr tt)
    end.
Proof.
  unfold first_mismatch. induction cubes as [| cube cubes IH]; simpl; [reflexivity |].
  destruct (bool_decide (variables = magnitudes cube)); simpl; [| reflexivity].
  rewrite IH. now destruct (List.find _ cubes).
Qed.

Lemma check_cubes_spec (cubes : list (list Z)) :
  check_cubes cubes =
  match cubes with
  | [] => ([], inl IndexError)
  | first :: _ =>
      match first_mismatch (magnitudes first) cubes with
      | Some cube => ([], inl (AssertionError (Some (cube, magnitudes first))))
      | None => ([], inr tt)
      end
  end.
Proof.
  unfold check_cubes. destruct cubes as [| first rest]; [reflexivity |].
  change (getitem (first :: rest) 0) with (@ret E _ first).
  cbv beta iota delta [bind ret]. rewrite assert_loop_spec.
  now destruct (first_mismatch _ _).
Qed.

Lemma first_mismatch_Some variables cubes cube :
  first_mismatch variables cubes = Some cube ->
  In cube cubes /\ magnitudes cube <> variables.
Proof.
  unfold first_mismatch. intros H. apply find_some in H as [Hin Hb]. split; [exact Hin |].
  apply negb_true_iff, bool_decide_eq_false in Hb. congruence.
Qed.

Lemma first_mismatch_None variables cubes :
  first_mismatch variables cubes = None <->
  Forall (fun cube => magnitudes cube = variables) cubes.
Proof.
  unfold first_mismatch. rewrite List.Forall_forall. split.
  - intros H cube Hin. pose proof (find_none _ _ H cube Hin) as Hb. simpl in Hb.
    apply negb_false_iff, bool_decide_eq_true in Hb. congruence.
  - intros H. destruct (List.find _ cubes) as [cube |] eqn:Hf; [| reflexivity].
    apply find_some in Hf as [Hin Hb].
    apply negb_true_iff, bool_decide_eq_false in Hb. specialize (H cube Hin). congruence.
Qed.

Lemma first_mismatch_exists variables cubes cube :
  In cube cubes -> magnitudes cube <> variables ->
  exists cube', first_mismatch variables cubes = Some cube'.
Proof.
  intros Hin Hne. destruct (first_mismatch variables cubes) eqn:Hf; [eauto |].
  apply first_mismatch_None in Hf. rewrite List.Forall_forall in Hf.
  now specialize (Hf cube Hin).
Qed.

(** The check passes exactly on the non-empty batches whose cubes all have
    the first cube's list of magnitudes. *)
Lemma check_cubes_ok_iff (cubes : list (list Z)) :
  check_cubes cubes = ([], inr tt) <->
  cubes <> [] /\ Forall (fun cube => magnitudes cube = magnitudes (hd [] cubes)) cubes.
Proof.
  rewrite check_cubes_spec. destruct cubes as [| first rest]; simpl hd.
  - split; [discriminate | intros [H _]; congruence].
  - destruct (first_mismatch _ _) eqn:Hf.
    + split; [discriminate |]. intros [_ H]. apply first_mismatch_None in H. congruence.
    + split; [| reflexivity]. intros _. split; [discriminate |].
      now apply first_mismatch_None.
Qed.

Lemma check_cubes_cases (cubes : list (list Z)) :
  check_cubes cubes = ([], inr tt) \/
  check_cubes cubes = ([], inl IndexError) \/
  exists cube, check_cubes cubes =
               ([], inl (AssertionError (Some (cube, magnitudes (hd [] cubes))))).
Proof.
  rewrite check_cubes_spec. destruct cubes as [| first rest]; simpl hd; auto.
  destruct (first_mismatch _ _); eauto.
Qed.
End Check.

(** ** The cube encoder *)

Section Encoder.
Context {E : BoolAlg}.

Lemma var_map_ok_empty : var_map_ok ∅.
Proof. intros v h H. rewrite lookup_empty in H. discriminate. Qed.

Lemma alloc_lookup var_map lit :
  var_map_ok var_map -> alloc var_map lit !! Z.abs lit = Some (exprvar "x" (Z.abs lit)).
Proof.
  intros Hok. unfold alloc. destruct (var_map !! Z.abs lit) as [h |] eqn:Hl.
  - rewrite Hl. f_equal. now apply Hok.
  - apply lookup_insert_eq.
Qed.

Lemma alloc_ok var_map lit : var_map_ok var_map -> var_map_ok (alloc var_map lit).
Proof.
  intros Hok v h. unfold alloc. destruct (var_map !! Z.abs lit) eqn:Hl; [apply Hok |].
  destruct (decide (Z.abs lit = v)) as [<- | Hne].
  - rewrite lookup_insert_eq. now intros [= <-].
  - rewrite lookup_insert_ne by exact Hne. apply Hok.
Qed.

Lemma alloc_keeps var_map lit v h :
  var_map !! v = Some h -> alloc var_map lit !! v = Some h.
Proof.
  intros Hv. unfold alloc. destruct (var_map !! Z.abs lit) eqn:Hl; [exact Hv |].
  rewrite lookup_insert_ne; [exact Hv | congruence].
Qed.

Lemma alloc_lookup_inv var_map lit v h :
  alloc var_map lit !! v = Some h -> var_map !! v = Some h \/ v = Z.abs lit.
Proof.
  unfold alloc. destruct (var_map !! Z.abs lit) eqn:Hl; [auto |].
  destruct (decide (Z.abs lit = v)) as [<- | Hne]; [auto |].
  rewrite lookup_insert_ne by exact Hne. auto.
Qed.

Lemma fold_alloc_ok lits : forall var_map,
  var_map_ok var_map -> var_map_ok (fold_left alloc lits var_map).
Proof. induction lits as [| lit lits IH]; simpl; auto using alloc_ok. Qed.

Lemma fold_alloc_keeps lits : forall var_map v h,
  var_map !! v = Some h -> fold_left alloc lits var_map !! v = Some h.
Proof. induction lits as [| lit lits IH]; simpl; auto using alloc_keeps. Qed.

Lemma fold_alloc_lookup lits : forall var_map v,
  var_map_ok var_map -> In v (magnitudes lits) ->
  fold_left alloc lits var_map !! v = Some (exprvar "x" v).
Proof.
  induction lits as [| lit lits IH]; simpl; intros var_map v Hok; [intros [] |].
  intros [<- | Hin].
  - apply fold_alloc_keeps, alloc_lookup, Hok.
  - apply IH; [now apply alloc_ok | exact Hin].
Qed.

Lemma fold_alloc_lookup_inv lits : forall var_map v h,
  fold_left alloc lits var_map !! v = Some h ->
  var_map !! v = Some h \/ In v (magnitudes lits).
Proof.
  induction lits as [| lit lits IH]; simpl; intros var_map v h H; [auto |].
  apply IH in H as [H | H]; [| auto].
  apply alloc_lookup_inv in H as [H | ->]; auto.
Qed.

Lemma lits_calls_only lits : forall var_map,
  Forall (fun ev => exists v, ev = CallExprvar "x" v /\ In v (magnitudes lits))
         (lits_calls var_map lits).
Proof.
  induction lits as [| lit lits IH]; simpl; intros var_map; [constructor |].
  apply Forall_app. split.
  - unfold alloc_calls. destruct (var_map !! Z.abs lit); repeat constructor; eauto.
  - eapply List.Forall_impl; [| apply IH]. intros ev (v & -> & Hin). eauto.
Qed.

(** A magnitude without a handle yet is allocated, by one call. *)
Lemma lits_calls_fresh lits : forall var_map v,
  In v (magnitudes lits) -> var_map !! v = None ->
  In (CallExprvar "x" v) (lits_calls var_map lits).
Proof.
  induction lits as [| lit lits IH]; simpl; intros var_map v; [intros [] |].
  intros Hin Hnone. apply in_or_app.
  destruct (decide (Z.abs lit = v)) as [<- | Hne].
  - left. unfold alloc_calls. rewrite Hnone. now left.
  - right. apply IH; [destruct Hin; [contradiction | assumption] |].
    unfold alloc. destruct (var_map !! Z.abs lit); [exact Hnone |].
    now rewrite lookup_insert_ne.
Qed.

Lemma encode_lit_spec var_map lits_expr lit :
  var_map_ok var_map ->
  encode_lit (var_map, lits_expr) lit =
  (alloc_calls var_map lit, inr (alloc var_map lit, lits_expr ++ [lit_expr lit])).
Proof.
  intros Hok. unfold encode_lit, alloc_calls, alloc, lit_expr.
  destruct (var_map !! Z.abs lit) as [h |] eqn:Hl; simpl.
  - unfold dict_getitem. rewrite Hl. simpl. now rewrite (Hok _ _ Hl).
  - unfold dict_getitem. now rewrite lookup_insert_eq.
Qed.

Lemma encode_lits_spec lits : forall var_map lits_expr,
  var_map_ok var_map ->
  for_acc lits (var_map, lits_expr) encode_lit =
  (lits_calls var_map lits,
   inr (fold_left alloc lits var_map, lits_expr ++ map lit_expr lits)).
Proof.
  induction lits as [| lit lits IH]; intros var_map lits_expr Hok.
  - simpl. now rewrite app_nil_r.
  - rewrite for_acc_cons, (bind_ok _ _ _ _ (encode_lit_spec _ _ _ Hok)).
    rewrite IH by now apply alloc_ok. simpl. now rewrite <- app_assoc.
Qed.

Lemma encode_cube_spec var_map cubes_expr cube :
  var_map_ok var_map ->
  encode_cube (var_map, cubes_expr) cube =
  (lits_calls var_map cube,
   inr (fold_left alloc cube var_map, cubes_expr ++ [cube_expr cube])).
Proof.
  intros Hok. unfold encode_cube.
  rewrite (bind_ok _ _ _ _ (encode_lits_spec _ _ _ Hok)). simpl.
  now rewrite app_nil_r.
Qed.

Lemma lits_calls_app l1 : forall var_map l2,
  lits_calls var_map (l1 ++ l2) =
  lits_calls var_map l1 ++ lits_calls (fold_left alloc l1 var_map) l2.
Proof.
  induction l1 as [| lit l1 IH]; simpl; intros var_map l2; [reflexivity |].
  now rewrite IH, app_assoc.
Qed.

Lemma encode_cubes_from cubes : forall var_map cubes_expr,
  var_map_ok var_map ->
  for_acc cubes (var_map, cubes_expr) encode_cube =
  (lits_calls var_map (concat cubes),
   inr (fold_left alloc (concat cubes) var_map, cubes_expr ++ map cube_expr cubes)).
Proof.
  induction cubes as [| cube cubes IH]; intros var_map cubes_expr Hok.
  - simpl. now rewrite app_nil_r.
  - rewrite for_acc_cons, (bind_ok _ _ _ _ (encode_cube_spec _ _ _ Hok)).
    rewrite IH by now apply fold_alloc_ok. simpl.
    now rewrite lits_calls_app, fold_left_app, <- app_assoc.
Qed.

(** The two loops of lines 33-46 never raise: they allocate one variable
    per new magnitude and build one conjunction per cube. *)
Lemma encode_cubes_spec cubes :
  encode_cubes cubes =
  (lits_calls ∅ (concat cubes),
   inr (fold_left alloc (concat cubes) ∅, map cube_expr cubes)).
Proof. unfold encode_cubes. now rewrite encode_cubes_from by apply var_map_ok_empty. Qed.

(** [cubes_to_dnf] on a batch that passes the check. *)
Lemma cubes_to_dnf_checked cubes :
  check_cubes cubes = ([], inr tt) ->
  cubes_to_dnf cubes =
  (lits_calls ∅ (concat cubes),
   if is_dnf (Or (map cube_expr cubes)) then inr (Or (map cube_expr cubes))
   else inl (AssertionError None)).
Proof.
  intros Hc. unfold cubes_to_dnf. rewrite Hc. simpl. rewrite encode_cubes_spec. simpl.
  destruct (is_dnf _); simpl; now rewrite app_nil_r.
Qed.

Lemma cubes_to_dnf_failed_check cubes e :
  check_cubes cubes = ([], inl e) -> cubes_to_dnf cubes = ([], inl e).
Proof. intros Hc. unfold cubes_to_dnf. now rewrite Hc. Qed.

Lemma cubes_to_dnf_ok_inv cubes l dnf :
  cubes_to_dnf cubes = (l, inr dnf) ->
  check_cubes cubes = ([], inr tt) /\
  l = lits_calls ∅ (concat cubes) /\
  dnf = Or (map cube_expr cubes) /\ is_dnf dnf = true.
Proof.
  intros H. destruct (check_cubes_cases cubes) as [Hc | [Hc | [cube Hc]]].
  - rewrite (cubes_to_dnf_checked _ Hc) in H.
    destruct (is_dnf _) eqn:Hd; [| discriminate]. injection H as <- <-. auto.
  - rewrite (cubes_to_dnf_failed_check _ _ Hc) in H. discriminate.
  - rewrite (cubes_to_dnf_failed_check _ _ Hc) in H. discriminate.
Qed.
End Encoder.

(** ** Failure paths of [backdoor_to_clauses] *)

Section Failures.
Context {E : BoolAlg} {O : Minimizer E}.

Lemma backdoor_to_clauses_unfold easy :
  backdoor_to_clauses easy = bind (cubes_to_dnf easy) after_dnf.
Proof. reflexivity. Qed.

Lemma after_dnf_unfold dnf :
  after_dnf dnf =
  bind (tell (CallEspresso [dnf])) (fun _ => bind (unpack1 (espresso_exprs [dnf])) after_min).
Proof.
  unfold after_dnf, minimize_dnf, call_espresso.
  rewrite bind_assoc. unfold tell. cbn [bind]. now rewrite bind_ret_l.
Qed.

Lemma after_dnf_single dnf m :
  espresso_exprs [dnf] = [m] ->
  after_dnf dnf = (CallEspresso [dnf] :: calls (after_min m), outcome (after_min m)).
Proof.
  intros H. rewrite after_dnf_unfold, H. simpl. now destruct (after_min m).
Qed.

Lemma after_dnf_not_single dnf :
  length (espresso_exprs [dnf]) <> 1%nat ->
  exists u, after_dnf dnf = ([CallEspresso [dnf]], inl (ValueError u)).
Proof.
  intros H. rewrite after_dnf_unfold.
  destruct (espresso_exprs [dnf]) as [| m [| m' t]]; simpl in *; [eauto | lia | eauto].
Qed.

Lemma backdoor_failed_check easy e :
  check_cubes easy = ([], inl e) -> backdoor_to_clauses easy = ([], inl e).
Proof.
  intros H. rewrite backdoor_to_clauses_unfold.
  now rewrite (cubes_to_dnf_failed_check _ _ H).
Qed.

Lemma raises_only_ret {A} P (a : A) : raises_only P (ret a).
Proof. intros e [=]. Qed.

Lemma raises_only_raise {A} (P : exn -> Prop) e : P e -> raises_only P (@raise E A e).
Proof. intros H e' [= <-]. exact H. Qed.

Lemma decode_lit_no_violation litmap c lit :
  raises_only no_violation (decode_lit litmap c lit).
Proof.
  unfold decode_lit, dict_getitem, get_indices, getitem.
  apply raises_only_bind; [destruct (litmap !! Z.abs lit) |].
  - apply raises_only_ret.
  - now apply raises_only_raise.
  - intros h. apply raises_only_bind; [destruct (indices h) |].
    + apply raises_only_ret.
    + now apply raises_only_raise.
    + intros t. apply raises_only_bind; [destruct (nth_error t 0) |].
      * apply raises_only_ret.
      * now apply raises_only_raise.
      * intros v. apply raises_only_ret.
Qed.

Lemma cnf_to_clauses_no_violation cnf :
  raises_only no_violation (cnf_to_clauses cnf).
Proof.
  unfold cnf_to_clauses. apply raises_only_bind.
  - unfold py_assert. destruct (is_cnf cnf);
      [apply raises_only_ret | now apply raises_only_raise].
  - intros _. apply raises_only_bind.
    + unfold call_encode_cnf. apply raises_only_bind; intros; apply raises_only_ret.
    + intros [[litmap nvars] clauses]. apply raises_only_bind.
      * apply raises_only_for_acc. intros result clause. unfold decode_clause.
        apply raises_only_bind; [| intros; apply raises_only_ret].
        apply raises_only_for_acc. intros; apply decode_lit_no_violation.
      * intros; apply raises_only_ret.
Qed.

Lemma after_dnf_no_violation dnf : raises_only no_violation (after_dnf dnf).
Proof.
  unfold after_dnf. apply raises_only_bind.
  - unfold minimize_dnf, call_espresso.
    apply raises_only_bind; intros; apply raises_only_ret.
  - intros t. apply raises_only_bind.
    + destruct t as [| m [| m' t]]; simpl;
        [now apply raises_only_raise | apply raises_only_ret | now apply raises_only_raise].
    + intros m. apply raises_only_bind.
      * unfold call_to_cnf. apply raises_only_bind; intros; apply raises_only_ret.
      * intros; apply cnf_to_clauses_no_violation.
Qed.

(** Past the check, no input-contract violation is raised. *)
Lemma backdoor_checked_no_violation easy :
  check_cubes easy = ([], inr tt) ->
  raises_only no_violation (backdoor_to_clauses easy).
Proof.
  intros Hc. rewrite backdoor_to_clauses_unfold. apply raises_only_bind.
  - rewrite (cubes_to_dnf_checked _ Hc). intros e. unfold outcome. simpl.
    destruct (is_dnf _); [discriminate |]. now intros [= <-].
  - apply after_dnf_no_violation.
Qed.

(** C8: on the empty batch, [backdoor_to_clauses] fails with the
    out-of-range access [cubes[0]] of [cubes_to_dnf]: it has then made no
    call at all (no variable is allocated, the minimizer is not invoked),
    it returns no clause list, and the exception is not the input-contract
    violation. *)
Theorem empty_batch_index_error :
  backdoor_to_clauses [] = ([], inl IndexError) /\
  cubes_to_dnf [] = ([], inl IndexError) /\
  is_contract_violation IndexError = false.
Proof. repeat split. Qed.

(** The first mismatching cube stops the pipeline before any call. *)
Lemma mismatch_raises (easy : list (list Z)) cube :
  In cube easy -> magnitudes cube <> magnitudes (hd [] easy) ->
  exists cube', In cube' easy /\ magnitudes cube' <> magnitudes (hd [] easy) /\
    backdoor_to_clauses easy =
    ([], inl (AssertionError (Some (cube', magnitudes (hd [] easy))))).
Proof.
  intros Hin Hne.
  destruct (first_mismatch_exists _ _ _ Hin Hne) as [cube' Hf].
  exists cube'. destruct (first_mismatch_Some _ _ _ Hf) as [Hin' Hne'].
  repeat split; try assumption. apply backdoor_failed_check.
  rewrite check_cubes_spec. destruct easy as [| first rest]; [destruct Hin |].
  simpl hd in *. now rewrite Hf.
Qed.

(** C5: when some cube of the batch does not have the first cube's
    magnitudes, [backdoor_to_clauses] raises the input-contract violation
    (naming the first such cube) having made no call: in particular the
    minimizer is never invoked.  The mismatch is the one the code tests,
    between the lists of magnitudes; cubes over different sets of
    magnitudes have different lists. *)
Theorem mismatch_raises_before_minimize (easy : list (list Z)) :
  (exists cube, In cube easy /\ magnitudes cube <> magnitudes (hd [] easy)) ->
  (exists cube, In cube easy /\ magnitudes cube <> magnitudes (hd [] easy) /\
     backdoor_to_clauses easy =
     ([], inl (AssertionError (Some (cube, magnitudes (hd [] easy)))))) /\
  (forall args, ~ In (CallEspresso args) (calls (backdoor_to_clauses easy))).
Proof.
  intros (cube & Hin & Hne).
  pose proof (mismatch_raises _ _ Hin Hne) as Hx.
  split; [exact Hx |]. destruct Hx as (cube' & _ & _ & ->). intros args [].
Qed.

(** C3 (as the code has it): [backdoor_to_clauses] raises the
    input-contract violation if and only if some cube's list of
    magnitudes, taken in the cube's own order, differs from the first
    cube's. *)
Theorem contract_violation_iff_positional_mismatch (easy : list (list Z)) :
  (exists e, outcome (backdoor_to_clauses easy) = inl e /\
             is_contract_violation e = true) <->
  (exists cube, In cube easy /\ magnitudes cube <> magnitudes (hd [] easy)).
Proof.
  split.
  - intros (e & He & Hv).
    destruct (check_cubes_cases easy) as [Hc | [Hc | [cube Hc]]].
    + apply (backdoor_checked_no_violation _ Hc) in He. unfold no_violation in He.
      congruence.
    + rewrite (backdoor_failed_check _ _ Hc) in He. injection He as <-. discriminate.
    + rewrite check_cubes_spec in Hc. destruct easy as [| first rest]; [discriminate |].
      simpl hd in *. destruct (first_mismatch _ _) as [cube' |] eqn:Hf; [| discriminate].
      exists cube'. now apply first_mismatch_Some.
  - intros (cube & Hin & Hne).
    destruct (mismatch_raises _ _ Hin Hne) as (cube' & _ & _ & ->).
    eexists. split; reflexivity.
Qed.
Lemma lits_calls_no_to_cnf var_map lits e :
  ~ In (CallToCnf e) (lits_calls var_map lits).
Proof.
  intros Hin. pose proof (lits_calls_only lits var_map) as HF.
  rewrite List.Forall_forall in HF. destruct (HF _ Hin) as (v & Hv & _). discriminate.
Qed.

(** C4: once the cube encoder has produced the DNF, a minimizer result
    whose size is not one makes [backdoor_to_clauses] fail with the
    unpacking [ValueError] right after the minimizer call; a result of size
    one is unpacked and the pipeline goes on with lines 22-24; and the
    pipeline reaches the CNF conversion only when the size is one. *)
Theorem oracle_cardinality (easy : list (list Z)) l dnf :
  cubes_to_dnf easy = (l, inr dnf) ->
  (length (espresso_exprs [dnf]) <> 1%nat ->
     exists u, backdoor_to_clauses easy =
               (l ++ [CallEspresso [dnf]], inl (ValueError u))) /\
  (forall m, espresso_exprs [dnf] = [m] ->
     backdoor_to_clauses easy =
     (l ++ CallEspresso [dnf] :: calls (after_min m), outcome (after_min m))) /\
  ((exists e, In (CallToCnf e) (calls (backdoor_to_clauses easy))) ->
     length (espresso_exprs [dnf]) = 1%nat) /\
  (forall cls, outcome (backdoor_to_clauses easy) = inr cls ->
     length (espresso_exprs [dnf]) = 1%nat).
Proof.
  intros Hd.
  assert (length (espresso_exprs [dnf]) <> 1%nat ->
          exists u, backdoor_to_clauses easy =
                    (l ++ [CallEspresso [dnf]], inl (ValueError u))) as Hbad.
  { intros Hn. destruct (after_dnf_not_single _ Hn) as [u Hu]. exists u.
    rewrite backdoor_to_clauses_unfold, (bind_ok _ _ _ _ Hd), Hu. reflexivity. }
  split; [exact Hbad |]. split; [| split].
  - intros m Hm.
    rewrite backdoor_to_clauses_unfold, (bind_ok _ _ _ _ Hd), (after_dnf_single _ _ Hm).
    reflexivity.
  - intros [e Hin].
    destruct (Nat.eq_dec (length (espresso_exprs [dnf])) 1%nat) as [Heq | Hn]; [exact Heq |].
    destruct (Hbad Hn) as [u Hu]. rewrite Hu in Hin. unfold calls in Hin. simpl in Hin.
    apply in_app_or in Hin as [Hin | [Hin | []]]; [| discriminate].
    apply cubes_to_dnf_ok_inv in Hd as (_ & -> & _).
    now apply lits_calls_no_to_cnf in Hin.
  - intros cls Hcls.
    destruct (Nat.eq_dec (length (espresso_exprs [dnf])) 1%nat) as [Heq | Hn]; [exact Heq |].
    destruct (Hbad Hn) as [u Hu]. rewrite Hu in Hcls. discriminate.
Qed.
End Failures.

(** ** Acceptance of the literal 0, two runs *)

Section Acceptance.
Context {E : BoolAlg}.

(** C10: no test on the literals being nonzero is made.  Every non-empty
    batch whose cubes agree position by position on absolute values passes
    the consistency check and is encoded, one conjunction per cube, also
    when the cubes hold the literal 0: [lit < 0] is false for it, so it is
    encoded as the plain variable [exprvar("x", 0)], which is allocated
    like any other. *)
Theorem zero_literal_accepted (cubes : list (list Z)) :
  cubes <> [] ->
  Forall (fun cube => magnitudes cube = magnitudes (hd [] cubes)) cubes ->
  check_cubes cubes = ([], inr tt) /\
  encode_cubes cubes =
    (lits_calls ∅ (concat cubes),
     inr (fold_left alloc (concat cubes) ∅, map cube_expr cubes)) /\
  cubes_to_dnf cubes =
    (lits_calls ∅ (concat cubes),
     if is_dnf (Or (map cube_expr cubes)) then inr (Or (map cube_expr cubes))
     else inl (AssertionError None)) /\
  lit_expr 0 = exprvar "x" 0 /\
  (In 0 (concat cubes) ->
     In (CallExprvar "x" 0) (calls (encode_cubes cubes)) /\
     fold_left alloc (concat cubes) ∅ !! 0 = Some (exprvar "x" 0)).
Proof.
  intros Hne Hall.
  assert (check_cubes cubes = ([], inr tt)) as Hc by now apply check_cubes_ok_iff.
  split; [exact Hc |]. split; [apply encode_cubes_spec |].
  split; [now apply cubes_to_dnf_checked |]. split; [reflexivity |].
  intros H0. assert (In 0 (magnitudes (concat cubes))) as Hm.
  { unfold magnitudes. change 0 with (Z.abs 0). now apply in_map. }
  split.
  - rewrite encode_cubes_spec. unfold calls. simpl.
    apply lits_calls_fresh; [exact Hm | apply lookup_empty].
  - apply fold_alloc_lookup; [apply var_map_ok_empty | exact Hm].
Qed.

End Acceptance.

(** ** Sorting by a key *)

Section SortFacts.
Context {A K : Type} (ltb : K -> K -> bool) (key : A -> K) (le : A -> A -> Prop).
Hypothesis le_of_ltb : forall x y, ltb (key x) (key y) = true -> le x y.
Hypothesis le_of_not_ltb : forall x y, ltb (key y) (key x) = false -> le x y.
Hypothesis le_trans : forall x y z, le x y -> le y z -> le x z.

Lemma insert_by_perm x l : Permutation (x :: l) (insert_by ltb key x l).
Proof.
  induction l as [| y l IH]; simpl; [reflexivity |].
  destruct (ltb (key y) (key x)); [| reflexivity].
  rewrite perm_swap. now apply perm_skip.
Qed.

Lemma sort_by_perm l : Permutation l (sort_by ltb key l).
Proof.
  induction l as [| x l IH]; simpl; [reflexivity |].
  rewrite <- insert_by_perm. now apply perm_skip.
Qed.

Lemma insert_by_sorted x l :
  StronglySorted le l -> StronglySorted le (insert_by ltb key x l).
Proof.
  induction l as [| y l IH]; simpl; intros Hs.
  - repeat constructor.
  - apply StronglySorted_inv in Hs as [Hs Hy].
    destruct (ltb (key y) (key x)) eqn:Hlt.
    + constructor; [now apply IH |].
      rewrite List.Forall_forall in *. intros z Hz.
      apply (Permutation_in _ (Permutation_sym (insert_by_perm x l))) in Hz.
      destruct Hz as [<- | Hz]; [now apply le_of_ltb | now apply Hy].
    + apply le_of_not_ltb in Hlt. constructor; [now constructor |].
      constructor; [exact Hlt |].
      eapply List.Forall_impl; [| exact Hy]. intros z Hz. eapply le_trans; eassumption.
Qed.

Lemma sort_by_sorted l : StronglySorted le (sort_by ltb key l).
Proof.
  induction l as [| x l IH]; simpl; [constructor | now apply insert_by_sorted].
Qed.
End SortFacts.

Section Orders.
Lemma tuple_ltb_true s : forall t, tuple_ltb s t = true -> tuple_lt s t.
Proof.
  induction s as [| x s IH]; intros [| y t]; simpl; try discriminate.
  - constructor.
  - destruct (x =? y) eqn:Hxy.
    + apply Z.eqb_eq in Hxy as ->. intros H. apply tuple_lt_tail. now apply IH.
    + intros H. apply Z.ltb_lt in H. now apply tuple_lt_head.
Qed.

Lemma tuple_ltb_false s : forall t, tuple_ltb s t = false -> tuple_le t s.
Proof.
  induction s as [| x s IH]; intros [| y t]; simpl; try discriminate.
  - now left.
  - intros _. right. constructor.
  - destruct (x =? y) eqn:Hxy.
    + apply Z.eqb_eq in Hxy as ->. intros H.
      destruct (IH _ H) as [-> | Hlt]; [now left | right; now apply tuple_lt_tail].
    + intros H. apply Z.eqb_neq in Hxy. apply Z.ltb_ge in H.
      right. apply tuple_lt_head. lia.
Qed.

Lemma tuple_lt_trans s t u : tuple_lt s t -> tuple_lt t u -> tuple_lt s u.
Proof.
  intros Hst. revert u. induction Hst; intros u Htu; inversion Htu; subst.
  - constructor.
  - constructor.
  - apply tuple_lt_head. lia.
  - now apply tuple_lt_head.
  - now apply tuple_lt_head.
  - apply tuple_lt_tail. now apply IHHst.
Qed.

Lemma tuple_le_trans s t u : tuple_le s t -> tuple_le t u -> tuple_le s u.
Proof.
  intros [-> | Hst] [-> | Htu]; try (now left); try (now right).
  right. eapply tuple_lt_trans; eassumption.
Qed.

Lemma lit_le_of_ltb x y : (Z.abs x <? Z.abs y) = true -> lit_le x y.
Proof. unfold lit_le. intros H. apply Z.ltb_lt in H. lia. Qed.

Lemma lit_le_of_not_ltb x y : (Z.abs y <? Z.abs x) = false -> lit_le x y.
Proof. unfold lit_le. intros H. now apply Z.ltb_ge in H. Qed.

Lemma lit_le_trans x y z : lit_le x y -> lit_le y z -> lit_le x z.
Proof. unfold lit_le. lia. Qed.

Lemma clause_le_of_ltb c d :
  key_ltb (clause_key c) (clause_key d) = true -> clause_le c d.
Proof.
  unfold key_ltb, clause_key, clause_le. simpl.
  destruct (length c =? length d)%nat eqn:Hl.
  - apply Nat.eqb_eq in Hl. intros H. right. split; [exact Hl |].
    right. now apply tuple_ltb_true.
  - intros H. apply Nat.ltb_lt in H. now left.
Qed.

Lemma clause_le_of_not_ltb c d :
  key_ltb (clause_key d) (clause_key c) = false -> clause_le c d.
Proof.
  unfold key_ltb, clause_key, clause_le. simpl.
  destruct (length d =? length c)%nat eqn:Hl.
  - apply Nat.eqb_eq in Hl. intros H. right. split; [now symmetry |].
    now apply tuple_ltb_false.
  - intros H. apply Nat.eqb_neq in Hl. apply Nat.ltb_ge in H. left. lia.
Qed.

Lemma clause_le_trans c d e : clause_le c d -> clause_le d e -> clause_le c e.
Proof.
  unfold clause_le. intros [H1 | [H1 T1]] [H2 | [H2 T2]]; try (left; lia).
  right. split; [lia |]. eapply tuple_le_trans; eassumption.
Qed.

Lemma sort_lits_sorted c : StronglySorted lit_le (sort_by Z.ltb Z.abs c).
Proof.
  apply sort_by_sorted;
    [exact lit_le_of_ltb | exact lit_le_of_not_ltb | exact lit_le_trans].
Qed.

Lemma sort_clauses_sorted cls : StronglySorted clause_le (sort_by key_ltb clause_key cls).
Proof.
  apply sort_by_sorted;
    [exact clause_le_of_ltb | exact clause_le_of_not_ltb | exact clause_le_trans].
Qed.
End Orders.

(** ** The clause encoder *)

Section Decoder.
Context {E : BoolAlg} {O : Minimizer E}.

Lemma decode_lit_ok_inv litmap c lit lx out :
  decode_lit litmap c lit = (lx, inr out) ->
  exists y, out = c ++ [y] /\ decoded litmap lit y.
Proof.
  unfold decode_lit. intros H.
  apply bind_ok_inv in H as (l1 & h & l2 & Hh & H & ->).
  apply bind_ok_inv in H as (l3 & t & l4 & Ht & H & ->).
  apply bind_ok_inv in H as (l5 & v & l6 & Hv & H & ->).
  cbv zeta in H. unfold ret in H. injection H as <- <-.
  unfold dict_getitem in Hh. destruct (litmap !! Z.abs lit) as [h' |] eqn:Hl; [| discriminate].
  injection Hh as <- ->.
  unfold get_indices in Ht. destruct (indices h) as [t' |] eqn:Hi; [| discriminate].
  injection Ht as <- ->.
  unfold getitem in Hv. destruct t as [| v' t]; [discriminate |]. injection Hv as <- ->.
  exists (signed v (lit <? 0)). split; [reflexivity |]. exists h, v, t. auto.
Qed.

Lemma decode_clause_ok_inv litmap result clause lx out :
  decode_clause litmap result clause = (lx, inr out) ->
  exists y, out = result ++ [y] /\ decoded_clause litmap clause y.
Proof.
  unfold decode_clause. intros H.
  apply bind_ok_inv in H as (l1 & c & l2 & Hc & Hr & ->).
  cbv zeta in Hr. unfold ret in Hr. injection Hr as <- <-.
  apply (for_acc_append_ok (decoded litmap)) in Hc as (ys & -> & HF);
    [| apply decode_lit_ok_inv].
  eexists. split; [reflexivity |]. exists ys. auto.
Qed.

(** A successful [cnf_to_clauses] sorts the decoded clauses of
    [encode_cnf]. *)
Lemma cnf_to_clauses_ok_inv cnf l cls :
  cnf_to_clauses cnf = (l, inr cls) ->
  is_cnf cnf = true /\
  exists result,
    Forall2 (decoded_clause (fst (fst (encode_cnf cnf)))) (snd (encode_cnf cnf)) result /\
    cls = sort_by key_ltb clause_key result.
Proof.
  unfold cnf_to_clauses, py_assert. destruct (is_cnf cnf); [| discriminate].
  rewrite bind_ret_l. unfold call_encode_cnf. rewrite bind_assoc. unfold tell. cbn [bind].
  rewrite bind_ret_l. destruct (encode_cnf cnf) as [[litmap nvars] clauses]. simpl fst; simpl snd.
  intros H. split; [reflexivity |].
  destruct (bind _ _) as [l' r] eqn:Hb. injection H as <- ->.
  apply bind_ok_inv in Hb as (l1 & result & l2 & Hres & Hr & ->). injection Hr as <- <-.
  apply (for_acc_append_ok (decoded_clause litmap)) in Hres as (ys & -> & HF);
    [| apply decode_clause_ok_inv].
  exists ys. auto.
Qed.

(** The stages of a successful run. *)
Lemma backdoor_to_clauses_ok_inv easy l cls :
  backdoor_to_clauses easy = (l, inr cls) ->
  exists l1 dnf m l2,
    cubes_to_dnf easy = (l1, inr dnf) /\
    espresso_exprs [dnf] = [m] /\
    cnf_to_clauses (to_cnf (Not m)) = (l2, inr cls).
Proof.
  rewrite backdoor_to_clauses_unfold. intros H.
  apply bind_ok_inv in H as (l1 & dnf & l2 & Hd & Ha & ->).
  exists l1, dnf. rewrite after_dnf_unfold in Ha. unfold tell in Ha. cbn [bind] in Ha.
  destruct (espresso_exprs [dnf]) as [| m [| m' t]]; simpl in Ha; try discriminate.
  exists m. unfold after_min, call_to_cnf in Ha.
  rewrite bind_assoc in Ha. unfold tell in Ha. cbn [bind] in Ha. rewrite bind_ret_l in Ha.
  destruct (cnf_to_clauses (to_cnf (Not m))) as [l3 r] eqn:Hc.
  simpl in Ha. injection Ha as <- ->. eauto.
Qed.

(** C2: in every clause list that [backdoor_to_clauses] returns, the
    literals of each clause are in ascending order of absolute value, and
    the clauses are in ascending order of the key (length, tuple of
    absolute values): each clause is below every later one. *)
Theorem backdoor_to_clauses_sorted (easy : list (list Z)) l cls :
  backdoor_to_clauses easy = (l, inr cls) ->
  Forall (StronglySorted lit_le) cls /\ StronglySorted clause_le cls.
Proof.
  intros H. apply backdoor_to_clauses_ok_inv in H as (l1 & dnf & m & l2 & _ & _ & H).
  apply cnf_to_clauses_ok_inv in H as (_ & result & HF & ->).
  split; [| apply sort_clauses_sorted].
  assert (Forall (StronglySorted lit_le) result) as Hres.
  { clear -HF. induction HF as [| clause out ? ? (c & _ & ->) _ IH]; constructor;
      [apply sort_lits_sorted | exact IH]. }
  rewrite List.Forall_forall in *. intros c Hc. apply Hres.
  eapply Permutation_in; [| exact Hc]. apply Permutation_sym, sort_by_perm.
Qed.
End Decoder.

(** ** Lists and signs *)

Section ListFacts.
Context {A B : Type}.

Lemma Forall2_In_r (R : A -> B -> Prop) l l' y :
  Forall2 R l l' -> In y l' -> exists x, In x l /\ R x y.
Proof.
  induction 1 as [| x y' l l' Hxy _ IH]; simpl; [intros [] |].
  intros [<- | Hin]; [eauto |]. destruct (IH Hin) as (x' & Hx' & HR). eauto.
Qed.

Lemma Forall2_existsb (R : A -> B -> Prop) (f : A -> bool) (g : B -> bool) l l' :
  Forall2 R l l' -> (forall x y, In x l -> R x y -> f x = g y) ->
  existsb f l = existsb g l'.
Proof.
  induction 1 as [| x y l l' Hxy _ IH]; simpl; intros Hfg; [reflexivity |].
  rewrite (Hfg x y), IH; auto.
Qed.

Lemma Forall2_forallb (R : A -> B -> Prop) (f : A -> bool) (g : B -> bool) l l' :
  Forall2 R l l' -> (forall x y, In x l -> R x y -> f x = g y) ->
  forallb f l = forallb g l'.
Proof.
  induction 1 as [| x y l l' Hxy _ IH]; simpl; intros Hfg; [reflexivity |].
  rewrite (Hfg x y), IH; auto.
Qed.

Lemma existsb_perm (f : A -> bool) l l' :
  Permutation l l' -> existsb f l = existsb f l'.
Proof.
  induction 1; simpl; try congruence.
  now rewrite !orb_assoc, (orb_comm (f y)).
Qed.

Lemma forallb_perm (f : A -> bool) l l' :
  Permutation l l' -> forallb f l = forallb f l'.
Proof.
  induction 1; simpl; try congruence.
  now rewrite !andb_assoc, (andb_comm (f y)).
Qed.

Lemma existsb_map (g : A -> B) (f : B -> bool) l :
  existsb f (map g l) = existsb (fun x => f (g x)) l.
Proof. induction l; simpl; congruence. Qed.

Lemma forallb_map (g : A -> B) (f : B -> bool) l :
  forallb f (map g l) = forallb (fun x => f (g x)) l.
Proof. induction l; simpl; congruence. Qed.
End ListFacts.

Lemma signed_abs v s : Z.abs (signed v s) = Z.abs v.
Proof. unfold signed, bool2sign. destruct s; lia. Qed.

Lemma signed_sign v s : 0 < v -> (signed v s <? 0) = s.
Proof.
  unfold signed, bool2sign. intros Hv. destruct s; [apply Z.ltb_lt | apply Z.ltb_ge]; lia.
Qed.

Lemma lit_holds_signed rho v s :
  0 < v -> lit_holds rho (signed v s) = xorb s (rho v).
Proof.
  intros Hv. unfold lit_holds. rewrite signed_sign, signed_abs by exact Hv.
  rewrite Z.abs_eq by lia. now destruct s, (rho v).
Qed.

(** ** The pipeline under the contract of its collaborators *)

Section Contract.
Context {E : BoolAlg} {O : Minimizer E}.
Context (eval : (string -> Z -> bool) -> expr -> bool) `{!MeaningLaws eval}.
Context (support : expr -> list (string * Z)) `{!VariableLaws support}.

Lemma eval_lit_expr rho lit : eval (env rho) (lit_expr lit) = lit_holds rho lit.
Proof.
  unfold lit_expr, lit_holds. destruct (lit <? 0);
    now rewrite ?eval_Not, eval_exprvar.
Qed.

Lemma eval_cube_expr rho cube : eval (env rho) (cube_expr cube) = cube_holds rho cube.
Proof.
  unfold cube_expr, cube_holds. rewrite eval_And, forallb_map.
  induction cube as [| lit cube IH]; simpl; [reflexivity |].
  now rewrite eval_lit_expr, IH.
Qed.

Lemma eval_dnf rho cubes :
  eval (env rho) (Or (map cube_expr cubes)) = cubes_hold rho cubes.
Proof.
  unfold cubes_hold. rewrite eval_Or, existsb_map.
  induction cubes as [| cube cubes IH]; simpl; [reflexivity |].
  now rewrite eval_cube_expr, IH.
Qed.

Lemma support_lit_expr lit x :
  In x (support (lit_expr lit)) -> x = ("x"%string, Z.abs lit).
Proof.
  unfold lit_expr. destruct (lit <? 0); intros H.
  - apply support_Not in H. now apply support_exprvar.
  - now apply support_exprvar.
Qed.

Lemma support_dnf cubes n i :
  In (n, i) (support (Or (map cube_expr cubes))) ->
  n = "x"%string /\ In i (magnitudes (concat cubes)).
Proof.
  intros H. apply support_Or in H as (e & He & H).
  apply in_map_iff in He as (cube & <- & Hcube).
  apply support_And in H as (e & He & H).
  apply in_map_iff in He as (lit & <- & Hlit).
  apply support_lit_expr in H. injection H as -> ->. split; [reflexivity |].
  unfold magnitudes. apply in_map, in_concat. eauto.
Qed.

(** The variables of the CNF of a run are variables of the input. *)
Lemma support_cnf easy l dnf m n i :
  cubes_to_dnf easy = (l, inr dnf) -> espresso_exprs [dnf] = [m] ->
  In (n, i) (support (to_cnf (Not m))) ->
  n = "x"%string /\ In i (magnitudes (concat easy)).
Proof.
  intros Hd Hm H. apply cubes_to_dnf_ok_inv in Hd as (_ & _ & -> & _).
  apply support_dnf. eapply support_espresso; [exact Hm |].
  now apply support_Not, support_to_cnf.
Qed.

(** A decoded literal is the index of the variable the literal map gives,
    signed by the literal. *)
Lemma decoded_origin cnf clause lit y :
  is_cnf cnf = true -> In clause (snd (encode_cnf cnf)) -> In lit clause ->
  decoded (fst (fst (encode_cnf cnf))) lit y ->
  exists n i, fst (fst (encode_cnf cnf)) !! Z.abs lit = Some (exprvar n i) /\
              In (n, i) (support cnf) /\ y = signed i (lit <? 0).
Proof.
  intros Hc Hcl Hlit (h & v & t & Hh & Hi & ->).
  destruct (encode_cnf_vars _ _ _ Hc Hcl Hlit) as (n & i & Hni & Hs).
  exists n, i. rewrite Hni in Hh. injection Hh as <-.
  rewrite indices_exprvar in Hi. injection Hi as <- <-. auto.
Qed.

(** Every literal of the output of a run comes from a literal of
    [encode_cnf] whose handle is the variable the cube encoder made for
    one of the input's magnitudes. *)
Lemma output_origin easy l cls c y :
  backdoor_to_clauses easy = (l, inr cls) -> In c cls -> In y c ->
  exists l1 dnf m clause lit v,
    cubes_to_dnf easy = (l1, inr dnf) /\ espresso_exprs [dnf] = [m] /\
    In clause (snd (encode_cnf (to_cnf (Not m)))) /\ In lit clause /\
    fst (fst (encode_cnf (to_cnf (Not m)))) !! Z.abs lit = Some (exprvar "x" v) /\
    In v (magnitudes (concat easy)) /\ y = signed v (lit <? 0).
Proof.
  intros H Hc Hy.
  apply backdoor_to_clauses_ok_inv in H as (l1 & dnf & m & l2 & Hd & Hm & H).
  apply cnf_to_clauses_ok_inv in H as (Hcnf & result & HF & ->).
  apply (Permutation_in _ (Permutation_sym (sort_by_perm _ _ _))) in Hc.
  destruct (Forall2_In_r _ _ _ _ HF Hc) as (clause & Hclause & c0 & HF0 & ->).
  apply (Permutation_in _ (Permutation_sym (sort_by_perm _ _ _))) in Hy.
  destruct (Forall2_In_r _ _ _ _ HF0 Hy) as (lit & Hlit & Hdec).
  destruct (decoded_origin _ _ _ _ Hcnf Hclause Hlit Hdec) as (n & i & Hni & Hs & ->).
  destruct (support_cnf _ _ _ _ _ _ Hd Hm Hs) as [-> Hi].
  exists l1, dnf, m, clause, lit, i. auto 10.
Qed.

(** C7: in a successful run, the absolute value of every literal of every
    output clause is the absolute value of a literal of the input. *)
Theorem output_magnitudes_from_input (easy : list (list Z)) l cls :
  backdoor_to_clauses easy = (l, inr cls) ->
  Forall (Forall (fun lit => In (Z.abs lit) (magnitudes (concat easy)))) cls.
Proof.
  intros H. rewrite List.Forall_forall. intros c Hc.
  rewrite List.Forall_forall. intros y Hy.
  destruct (output_origin _ _ _ _ _ H Hc Hy)
    as (l1 & dnf & m & clause & lit & v & _ & _ & _ & _ & _ & Hv & ->).
  rewrite signed_abs. unfold magnitudes in *.
  apply in_map_iff in Hv as (x & <- & Hx). rewrite (Z.abs_eq (Z.abs x)) by apply Z.abs_nonneg.
  now apply in_map.
Qed.
(** The clause encoder does not fail on what a well-behaved literal map
    holds. *)
Lemma decode_lit_exprvar (litmap : gmap Z expr) c lit n i :
  litmap !! Z.abs lit = Some (exprvar n i) ->
  decode_lit litmap c lit = ([], inr (c ++ [signed i (lit <? 0)])).
Proof.
  intros Hl. unfold decode_lit, dict_getitem, get_indices.
  rewrite Hl, bind_ret_l, indices_exprvar, bind_ret_l. reflexivity.
Qed.

Lemma decode_lits_ok (litmap : gmap Z expr) clause :
  (forall lit, In lit clause -> exists n i, litmap !! Z.abs lit = Some (exprvar n i)) ->
  forall c, exists c', for_acc clause c (decode_lit litmap) = ([], inr c').
Proof.
  induction clause as [| lit clause IH]; intros Hall c.
  - exists c. reflexivity.
  - destruct (Hall lit (or_introl eq_refl)) as (n & i & Hl).
    destruct (IH (fun x Hx => Hall x (or_intror Hx)) (c ++ [signed i (lit <? 0)]))
      as [c' Hc'].
    exists c'. rewrite for_acc_cons, (bind_ok _ _ _ _ (decode_lit_exprvar _ _ _ _ _ Hl)).
    now rewrite Hc'.
Qed.

Lemma decode_clauses_ok (litmap : gmap Z expr) clauses :
  (forall clause lit, In clause clauses -> In lit clause ->
     exists n i, litmap !! Z.abs lit = Some (exprvar n i)) ->
  forall result, exists result',
    for_acc clauses result (decode_clause litmap) = ([], inr result').
Proof.
  induction clauses as [| clause clauses IH]; intros Hall result.
  - exists result. reflexivity.
  - destruct (decode_lits_ok litmap clause
                (fun lit Hlit => Hall clause lit (or_introl eq_refl) Hlit) [])
      as [c Hc].
    destruct (IH (fun cl x Hcl Hx => Hall cl x (or_intror Hcl) Hx)
                 (result ++ [sort_by Z.ltb Z.abs c])) as [result' Hr].
    exists result'. rewrite for_acc_cons. unfold decode_clause at 1.
    rewrite (bind_ok _ _ _ _ Hc). simpl. now rewrite Hr.
Qed.

Lemma magnitudes_nonneg lits v : In v (magnitudes lits) -> 0 <= v.
Proof.
  unfold magnitudes. intros H. apply in_map_iff in H as (x & <- & _). apply Z.abs_nonneg.
Qed.

Lemma magnitudes_pos (easy : list (list Z)) v :
  Forall (Forall (fun lit => lit <> 0)) easy ->
  In v (magnitudes (concat easy)) -> 0 < v.
Proof.
  unfold magnitudes. intros Hnz H. apply in_map_iff in H as (x & <- & Hx).
  apply in_concat in Hx as (cube & Hcube & Hx).
  rewrite List.Forall_forall in Hnz. specialize (Hnz _ Hcube).
  rewrite List.Forall_forall in Hnz. specialize (Hnz _ Hx). lia.
Qed.

(** C1: for a batch of cubes (sequences of nonzero literals) on which
    [backdoor_to_clauses] returns a clause list, the batch is non-empty, its
    cubes share one list of variables, and the conjunction of the returned
    clauses is equivalent to the negation of the disjunction of the cubes:
    both have the same truth value under every assignment.  The minimizer
    and the CNF conversion are assumed to preserve equivalence, and the
    engine to respect the meaning and the variables of what it builds
    ([MeaningLaws], [VariableLaws]). *)
Theorem backdoor_to_clauses_equiv_neg_cubes (easy : list (list Z)) l cls :
  Forall (Forall (fun lit => lit <> 0)) easy ->
  backdoor_to_clauses easy = (l, inr cls) ->
  (easy <> [] /\
   Forall (fun cube => magnitudes cube = magnitudes (hd [] easy)) easy) /\
  forall rho, clauses_hold rho cls = negb (cubes_hold rho easy).
Proof.
  intros Hnz H.
  apply backdoor_to_clauses_ok_inv in H as (l1 & dnf & m & l2 & Hd & Hm & Hc).
  split.
  { apply cubes_to_dnf_ok_inv in Hd as (Hcheck & _). now apply check_cubes_ok_iff. }
  intros rho.
  apply cnf_to_clauses_ok_inv in Hc as (Hcnf & result & HF & ->).
  unfold clauses_hold. rewrite <- (forallb_perm _ _ _ (sort_by_perm _ _ result)).
  transitivity (eval (env rho) (to_cnf (Not m))).
  - rewrite (encode_cnf_equiv _ _ Hcnf). symmetry.
    apply (Forall2_forallb _ _ _ _ _ HF). intros clause c Hclause (c0 & HF0 & ->).
    unfold clause_holds. rewrite <- (existsb_perm _ _ _ (sort_by_perm _ _ c0)).
    apply (Forall2_existsb _ _ _ _ _ HF0). intros lit y Hlit Hdec.
    destruct (decoded_origin _ _ _ _ Hcnf Hclause Hlit Hdec) as (n & i & Hni & Hs & ->).
    destruct (support_cnf _ _ _ _ _ _ Hd Hm Hs) as [-> Hi].
    unfold engine_lit. rewrite Hni, eval_exprvar. unfold env.
    rewrite lit_holds_signed; [reflexivity |]. now apply (magnitudes_pos easy).
  - rewrite to_cnf_equiv, eval_Not, (espresso_equiv _ _ Hm).
    apply cubes_to_dnf_ok_inv in Hd as (_ & _ & -> & _). now rewrite eval_dnf.
Qed.

(** A relation that holds for the pairs of two lists can use that the
    first of a pair is in the first list. *)
Lemma Forall2_impl_In {A B} (R R' : A -> B -> Prop) (l : list A) (l' : list B) :
  (forall x y, In x l -> R x y -> R' x y) -> Forall2 R l l' -> Forall2 R' l l'.
Proof.
  intros H HF. induction HF as [| x y l l' Hxy HF IH]; constructor.
  - apply H; [left; reflexivity | exact Hxy].
  - apply IH. intros a b Ha. apply H. right. exact Ha.
Qed.

(** C9: the variable id survives the round trip exactly.  The cube encoder
    gives every magnitude [v] of the input the handle [exprvar("x", v)] and
    no other handle; for a literal whose handle in the literal map is
    [exprvar("x", v)], the clause encoder reads [v] back from
    [indices[0]] and emits [v] signed by the literal's polarity; so the
    output of a run is the clause list of [encode_cnf], clause by clause
    and, in each clause, literal by literal, with every literal [lit]
    replaced by [signed v (lit < 0)] for the magnitude [v] of the input
    whose handle the literal map gives for [abs(lit)], each clause then
    sorted and the clauses sorted: the absolute value of the output literal
    is [v], and it is negative exactly when [lit] is (for [v] other than 0,
    which has no negative). *)
Theorem variable_id_round_trip (easy : list (list Z)) :
  (exists log var_map cubes_expr,
     encode_cubes easy = (log, inr (var_map, cubes_expr)) /\
     forall v, (In v (magnitudes (concat easy)) <-> is_Some (var_map !! v)) /\
               (forall h, var_map !! v = Some h -> h = exprvar "x" v)) /\
  (forall (litmap : gmap Z expr) c lit v,
     litmap !! Z.abs lit = Some (exprvar "x" v) ->
     decode_lit litmap c lit = ([], inr (c ++ [signed v (lit <? 0)]))) /\
  (forall l cls,
     backdoor_to_clauses easy = (l, inr cls) ->
     exists l1 dnf m result,
       cubes_to_dnf easy = (l1, inr dnf) /\ espresso_exprs [dnf] = [m] /\
       Forall2 (carries_ids easy (fst (fst (encode_cnf (to_cnf (Not m))))))
               (snd (encode_cnf (to_cnf (Not m)))) result /\
       cls = sort_by key_ltb clause_key result).
Proof.
  split; [| split].
  - eexists _, _, _. split; [apply encode_cubes_spec |]. intros v. split; [split |].
    + intros Hv. exists (exprvar "x" v).
      apply fold_alloc_lookup; [apply var_map_ok_empty | exact Hv].
    + intros [h Hh]. apply fold_alloc_lookup_inv in Hh as [Hh | Hh]; [| exact Hh].
      rewrite lookup_empty in Hh. discriminate.
    + apply fold_alloc_ok, var_map_ok_empty.
  - intros litmap c lit v Hl. now apply (decode_lit_exprvar litmap c lit "x" v).
  - intros l cls H.
    apply backdoor_to_clauses_ok_inv in H as (l1 & dnf & m & l2 & Hd & Hm & H).
    apply cnf_to_clauses_ok_inv in H as (Hcnf & result & HF & ->).
    exists l1, dnf, m, result. repeat split; try assumption.
    revert HF. apply Forall2_impl_In. intros clause c Hclause (c0 & HF0 & ->).
    exists c0. split; [| reflexivity].
    revert HF0. apply Forall2_impl_In. intros lit y Hlit Hdec.
    destruct (decoded_origin _ _ _ _ Hcnf Hclause Hlit Hdec) as (n & i & Hni & Hs & ->).
    destruct (support_cnf _ _ _ _ _ _ Hd Hm Hs) as [-> Hi].
    exists i. pose proof (magnitudes_nonneg _ _ Hi) as Hge.
    repeat split; try assumption.
    + rewrite signed_abs. now apply Z.abs_eq.
    + intros Hne. apply signed_sign. lia.
Qed.

(** X20: when the two structural assertions pass and the minimizer returns
    one cover, a batch that passes the consistency check yields a clause
    list: the lookups and index accesses of the clause encoder do not
    fail. *)
Theorem backdoor_to_clauses_returns (easy : list (list Z)) m :
  easy <> [] ->
  Forall (fun cube => magnitudes cube = magnitudes (hd [] easy)) easy ->
  is_dnf (Or (map cube_expr easy)) = true ->
  espresso_exprs [Or (map cube_expr easy)] = [m] ->
  is_cnf (to_cnf (Not m)) = true ->
  exists l cls, backdoor_to_clauses easy = (l, inr cls).
Proof.
  intros Hne Hall Hdnf Hm Hcnf.
  assert (check_cubes easy = ([], inr tt)) as Hc by now apply check_cubes_ok_iff.
  pose proof (cubes_to_dnf_checked _ Hc) as Hd. rewrite Hdnf in Hd.
  rewrite backdoor_to_clauses_unfold, (bind_ok _ _ _ _ Hd), (after_dnf_single _ _ Hm).
  unfold after_min, call_to_cnf. rewrite bind_assoc. unfold tell. cbn [bind].
  rewrite bind_ret_l. unfold cnf_to_clauses, py_assert. rewrite Hcnf, bind_ret_l.
  unfold call_encode_cnf. rewrite bind_assoc. cbn [bind]. rewrite bind_ret_l.
  pose proof (encode_cnf_vars (to_cnf (Not m))) as Hv.
  destruct (encode_cnf (to_cnf (Not m))) as [[litmap nvars] clauses]. simpl in Hv.
  destruct (decode_clauses_ok litmap clauses) with (result := @nil (list Z))
    as [result Hr].
  { intros clause lit Hcl Hlit. destruct (Hv clause lit Hcnf Hcl Hlit) as (n & i & H & _).
    eauto. }
  rewrite Hr. simpl. eauto.
Qed.
End Contract.

(** ** The reference engine meets the contract *)

Module ReferenceFacts.
Import Reference.

Section Laws.
Variable rho : string -> Z -> bool.
Local Abbreviation h := (rlit_holds rho).

Lemma existsb_flat_map {A B} (f : B -> bool) (g : A -> list B) l :
  existsb f (flat_map g l) = existsb (fun x => existsb f (g x)) l.
Proof. induction l as [| x l IH]; simpl; [reflexivity |]. now rewrite existsb_app, IH. Qed.

Lemma forallb_flat_map {A B} (f : B -> bool) (g : A -> list B) l :
  forallb f (flat_map g l) = forallb (fun x => forallb f (g x)) l.
Proof. induction l as [| x l IH]; simpl; [reflexivity |]. now rewrite forallb_app, IH. Qed.

Lemma existsb_andb_r {A} (f : A -> bool) (b : bool) l :
  existsb (fun x => f x && b) l = existsb f l && b.
Proof.
  induction l as [| x l IH]; simpl; [reflexivity |]. rewrite IH.
  now destruct (f x), b, (existsb f l).
Qed.

Lemma forallb_orb_r {A} (f : A -> bool) (b : bool) l :
  forallb (fun x => f x || b) l = forallb f l || b.
Proof.
  induction l as [| x l IH]; simpl; [reflexivity |]. rewrite IH.
  now destruct (f x), b, (forallb f l).
Qed.

(** Distribution turns a conjunction of disjunctions into a disjunction
    of conjunctions, and the other way round. *)
Lemma choose_exists ls :
  existsb (forallb h) (choose ls) = forallb (existsb h) ls.
Proof.
  induction ls as [| c ls IH]; simpl; [reflexivity |].
  rewrite existsb_flat_map, <- IH, <- existsb_andb_r.
  induction c as [| l c IHc]; simpl; [reflexivity |]. rewrite <- IHc. f_equal.
  rewrite existsb_map. simpl. clear. induction (choose ls) as [| d ds IHd]; simpl.
  - now rewrite andb_false_r.
  - rewrite IHd. now destruct (h l), (forallb h d).
Qed.

Lemma choose_forall ls :
  forallb (existsb h) (choose ls) = existsb (forallb h) ls.
Proof.
  induction ls as [| c ls IH]; simpl; [reflexivity |].
  rewrite forallb_flat_map, <- IH, <- forallb_orb_r.
  induction c as [| l c IHc]; simpl; [reflexivity |]. rewrite <- IHc. f_equal.
  rewrite forallb_map. simpl. clear. induction (choose ls) as [| d ds IHd]; simpl.
  - now rewrite orb_true_r.
  - rewrite IHd. now destruct (h l), (existsb h d).
Qed.

Lemma eval_as_cnf e : forallb (existsb h) (as_cnf e) = r_eval rho e.
Proof. destruct e; simpl; [reflexivity | apply choose_forall]. Qed.

Lemma eval_as_dnf e : existsb (forallb h) (as_dnf e) = r_eval rho e.
Proof. destruct e; simpl; [apply choose_exists | reflexivity]. Qed.

Lemma holds_negate l : h (negate l) = negb (h l).
Proof.
  unfold rlit_holds, negate. simpl. destruct (snd l); simpl; [reflexivity |].
  now rewrite negb_involutive.
Qed.

Lemma negate_forall c : forallb h (map negate c) = negb (existsb h c).
Proof.
  induction c as [| l c IH]; simpl; [reflexivity |].
  now rewrite holds_negate, IH, negb_orb.
Qed.

Lemma negate_exists c : existsb h (map negate c) = negb (forallb h c).
Proof.
  induction c as [| l c IH]; simpl; [reflexivity |].
  now rewrite holds_negate, IH, negb_andb.
Qed.

Lemma r_eval_var n i : r_eval rho (r_var n i) = rho n i.
Proof. simpl. now rewrite orb_false_r, andb_true_r. Qed.

Lemma r_eval_not e : r_eval rho (r_not e) = negb (r_eval rho e).
Proof.
  destruct e as [cs | ts]; simpl.
  - induction cs as [| c cs IH]; simpl; [reflexivity |].
    now rewrite negate_forall, IH, negb_andb.
  - induction ts as [| t ts IH]; simpl; [reflexivity |].
    now rewrite negate_exists, IH, negb_orb.
Qed.

Lemma r_eval_and es : r_eval rho (r_and es) = forallb (r_eval rho) es.
Proof.
  simpl. induction es as [| e es IH]; simpl; [reflexivity |].
  now rewrite forallb_app, IH, eval_as_cnf.
Qed.

Lemma r_eval_or es : r_eval rho (r_or es) = existsb (r_eval rho) es.
Proof.
  simpl. induction es as [| e es IH]; simpl; [reflexivity |].
  now rewrite existsb_app, IH, eval_as_dnf.
Qed.

Lemma r_eval_to_cnf e : r_eval rho (Cnf (as_cnf e)) = r_eval rho e.
Proof. apply eval_as_cnf. Qed.
End Laws.

Lemma choose_in ls : forall d l,
  In d (choose ls) -> In l d -> In l (concat ls).
Proof.
  induction ls as [| c ls IH]; simpl; intros d l Hd Hl.
  - destruct Hd as [<- | []]. destruct Hl.
  - apply in_flat_map in Hd as (l0 & Hl0 & Hd).
    apply in_map_iff in Hd as (d' & <- & Hd'). apply in_or_app.
    destruct Hl as [<- | Hl]; [now left | right; eauto].
Qed.

Lemma vars_choose ls x : In x (vars (choose ls)) -> In x (vars ls).
Proof.
  unfold vars. intros H. apply in_map_iff in H as (l & <- & Hl).
  apply in_concat in Hl as (d & Hd & Hl). apply in_map. eapply choose_in; eassumption.
Qed.

Lemma vars_as_cnf e x : In x (vars (as_cnf e)) -> In x (r_support e).
Proof. destruct e; simpl; [auto | apply vars_choose]. Qed.

Lemma vars_as_dnf e x : In x (vars (as_dnf e)) -> In x (r_support e).
Proof. destruct e; simpl; [apply vars_choose | auto]. Qed.

Lemma vars_negate ls : vars (map (map negate) ls) = vars ls.
Proof.
  unfold vars. induction ls as [| c ls IH]; simpl; [reflexivity |].
  rewrite !map_app. f_equal; [now rewrite map_map | exact IH].
Qed.

Lemma vars_concat_map (f : rexpr -> list (list rlit)) es x :
  In x (vars (concat (map f es))) -> exists e, In e es /\ In x (vars (f e)).
Proof.
  unfold vars. induction es as [| e es IH]; simpl; [intros [] |].
  rewrite concat_app, map_app. intros H. apply in_app_or in H as [H | H].
  - exists e. auto.
  - destruct (IH H) as (e' & He' & Hx). eauto.
Qed.

Lemma r_support_var n i x : In x (r_support (r_var n i)) -> x = (n, i).
Proof. simpl. intros [<- | []]. reflexivity. Qed.

Lemma r_support_not e x : In x (r_support (r_not e)) -> In x (r_support e).
Proof. destruct e; unfold r_support; cbn [r_not body]; now rewrite vars_negate. Qed.

Lemma r_support_and es x :
  In x (r_support (r_and es)) -> exists e, In e es /\ In x (r_support e).
Proof.
  unfold r_support, r_and. simpl. intros H.
  apply vars_concat_map in H as (e & He & Hx). eauto using vars_as_cnf.
Qed.

Lemma r_support_or es x :
  In x (r_support (r_or es)) -> exists e, In e es /\ In x (r_support e).
Proof.
  unfold r_support, r_or. simpl. intros H.
  apply vars_concat_map in H as (e & He & Hx). eauto using vars_as_dnf.
Qed.

Lemma r_support_to_cnf e x : In x (r_support (Cnf (as_cnf e))) -> In x (r_support e).
Proof. apply vars_as_cnf. Qed.

Lemma var_code_inj v w : var_code v = var_code w -> v = w.
Proof. unfold var_code. intros [= H]. now apply (inj encode) in H. Qed.

Lemma r_litmap_lookup vs v :
  In v vs -> r_litmap vs !! var_code v = Some (r_var (fst v) (snd v)).
Proof.
  induction vs as [| w vs IH]; simpl; [intros [] |]. intros Hin.
  destruct (decide (var_code w = var_code v)) as [Heq | Hne].
  - apply var_code_inj in Heq as ->. apply lookup_insert_eq.
  - rewrite lookup_insert_ne by exact Hne. destruct Hin as [-> | Hin]; [congruence | auto].
Qed.

Lemma abs_enc_lit l : Z.abs (enc_lit l) = var_code (fst l).
Proof. unfold enc_lit, var_code. now destruct (snd l). Qed.

Lemma sign_enc_lit l : (enc_lit l <? 0) = negb (snd l).
Proof. unfold enc_lit, var_code. now destruct (snd l). Qed.

Lemma r_encode_vars e clause lit :
  In clause (snd (r_encode_cnf e)) -> In lit clause ->
  exists n i, fst (fst (r_encode_cnf e)) !! Z.abs lit = Some (r_var n i) /\
              In (n, i) (r_support e).
Proof.
  unfold r_encode_cnf. simpl. intros Hc Hl.
  apply in_map_iff in Hc as (c & <- & Hc). apply in_map_iff in Hl as (l & <- & Hl).
  assert (In (fst l) (vars (as_cnf e))) as Hv.
  { unfold vars. apply in_map, in_concat. eauto. }
  exists (fst (fst l)), (snd (fst l)). rewrite abs_enc_lit. split.
  - now apply r_litmap_lookup.
  - apply vars_as_cnf. now destruct (fst l).
Qed.

Lemma r_encode_equiv e rho :
  r_eval rho e =
  forallb (existsb (engine_lit r_eval rho (fst (fst (r_encode_cnf e)))))
          (snd (r_encode_cnf e)).
Proof.
  rewrite <- eval_as_cnf. unfold r_encode_cnf. simpl. rewrite forallb_map.
  assert (forall cs, incl (vars cs) (vars (as_cnf e)) ->
          forallb (existsb (rlit_holds rho)) cs =
          forallb (fun c => existsb (engine_lit r_eval rho (r_litmap (vars (as_cnf e))))
                                    (map enc_lit c)) cs) as Hgen.
  { induction cs as [| c cs IH]; simpl; intros Hincl; [reflexivity |].
    rewrite <- IH.
    - f_equal. rewrite existsb_map.
      assert (incl (map fst c) (vars (as_cnf e))) as Hc.
      { intros x Hx. apply Hincl. unfold vars. simpl. rewrite map_app.
        apply in_or_app. now left. }
      clear -Hc. induction c as [| l c IHc]; simpl; [reflexivity |].
      rewrite <- IHc by (intros x Hx; apply Hc; now right). f_equal.
      unfold engine_lit. rewrite abs_enc_lit, sign_enc_lit.
      rewrite (r_litmap_lookup _ (fst l)) by (apply Hc; now left).
      rewrite r_eval_var. unfold rlit_holds. now destruct (snd l), (rho _ _).
    - intros x Hx. apply Hincl. unfold vars. simpl. rewrite map_app.
      apply in_or_app. now right. }
  apply Hgen. intros x Hx. exact Hx.
Qed.

#[global] Instance meaning : MeaningLaws r_eval.
Proof.
  split.
  - exact r_eval_var.
  - exact r_eval_not.
  - exact r_eval_and.
  - exact r_eval_or.
  - intros d m [= <-] rho. reflexivity.
  - intros rho e. apply r_eval_to_cnf.
  - intros e rho _. apply r_encode_equiv.
Qed.

#[global] Instance variables : VariableLaws r_support.
Proof.
  split.
  - exact r_support_var.
  - exact r_support_not.
  - exact r_support_and.
  - exact r_support_or.
  - intros d m [= <-] x Hx. exact Hx.
  - exact r_support_to_cnf.
  - intros e clause lit _. apply r_encode_vars.
  - reflexivity.
Qed.

End ReferenceFacts.

(** ** The pipeline on the reference engine *)

(** Cubes over different sets of magnitudes have different lists of
    magnitudes. *)
Lemma set_mismatch_list_mismatch c d :
  ~ same_magnitude_set c d -> magnitudes c <> magnitudes d.
Proof. intros H Heq. apply H. intros v. now rewrite Heq. Qed.

(** The run on the specification's example, with its calls. *)
Example example_batch_run :
  backdoor_to_clauses (E := Reference.engine) example_batch =
  ([CallExprvar "x" 1; CallExprvar "x" 2; CallExprvar "x" 3;
    CallEspresso (E := Reference.engine) [Reference.Dnf
      [[("x"%string, 1, true); ("x"%string, 2, true); ("x"%string, 3, false)];
       [("x"%string, 1, true); ("x"%string, 2, false); ("x"%string, 3, true)]]];
    CallToCnf (E := Reference.engine) (Reference.Cnf
      [[("x"%string, 1, false); ("x"%string, 2, false); ("x"%string, 3, true)];
       [("x"%string, 1, false); ("x"%string, 2, true); ("x"%string, 3, false)]]);
    CallEncodeCnf (E := Reference.engine) (Reference.Cnf
      [[("x"%string, 1, false); ("x"%string, 2, false); ("x"%string, 3, true)];
       [("x"%string, 1, false); ("x"%string, 2, true); ("x"%string, 3, false)]])],
   inr [[-1; -2; 3]; [-1; 2; -3]]).
Proof. vm_compute. reflexivity. Qed.

(** The literal 0 is read as a positive literal on the way in, and a
    negative literal of variable 0 comes out as 0: on a batch that holds 0
    the output is not equivalent to the negation of the cubes. *)
Example zero_loses_polarity :
  outcome (backdoor_to_clauses (E := Reference.engine) [[0]]) = inr [[0]] /\
  clauses_hold (fun _ => true) [[0]] = true /\
  negb (cubes_hold (fun _ => true) [[0]]) = false.
Proof. repeat split. Qed.

(** Minimizers that return no cover, or two. *)
Example no_cover_fails :
  backdoor_to_clauses (E := Reference.engine) (O := Reference.no_cover) [[1]] =
  ([CallExprvar "x" 1; CallEspresso (E := Reference.engine) [Reference.Dnf [[("x"%string, 1, true)]]]],
   inl (ValueError (NotEnoughValues 0))).
Proof. vm_compute. reflexivity. Qed.

Example two_covers_fails :
  backdoor_to_clauses (E := Reference.engine) (O := Reference.two_covers) [[1]] =
  ([CallExprvar "x" 1; CallEspresso (E := Reference.engine) [Reference.Dnf [[("x"%string, 1, true)]]]],
   inl (ValueError TooManyValues)).
Proof. vm_compute. reflexivity. Qed.

(** The equivalence on the batch of the specification's example. *)
Lemma backdoor_to_clauses_equiv_neg_cubes_witness :
  Forall (Forall (fun lit => lit <> 0)) example_batch /\
  forall rho, clauses_hold rho [[-1; -2; 3]; [-1; 2; -3]] =
              negb (cubes_hold rho example_batch).
Proof.
  assert (Forall (Forall (fun lit => lit <> 0)) example_batch) as Hnz.
  { repeat constructor; lia. }
  split; [exact Hnz |].
  refine (proj2 (backdoor_to_clauses_equiv_neg_cubes (E := Reference.engine)
           Reference.r_eval Reference.r_support example_batch
           (calls (backdoor_to_clauses example_batch)) _ Hnz _)).
  vm_compute. reflexivity.
Defined.

(** The order of the output on a batch whose three clauses have one key. *)
Lemma backdoor_to_clauses_sorted_witness :
  outcome (backdoor_to_clauses (E := Reference.engine) ties_batch) =
    inr [[-1; 2; -3]; [-1; 2; 3]; [1; 2; 3]] /\
  Forall (StronglySorted lit_le) [[-1; 2; -3]; [-1; 2; 3]; [1; 2; 3]] /\
  StronglySorted clause_le [[-1; 2; -3]; [-1; 2; 3]; [1; 2; 3]].
Proof.
  split; [vm_compute; reflexivity |].
  apply (backdoor_to_clauses_sorted (E := Reference.engine) ties_batch
           (calls (backdoor_to_clauses ties_batch))).
  vm_compute. reflexivity.
Defined.

(** The single cover of the reference minimizer is unpacked and the run goes
    on. *)
Lemma oracle_cardinality_witness :
  cubes_to_dnf (E := Reference.engine) example_batch =
    ([CallExprvar "x" 1; CallExprvar "x" 2; CallExprvar "x" 3],
     inr (Or (map cube_expr example_batch))) /\
  backdoor_to_clauses (E := Reference.engine) example_batch =
    ([CallExprvar "x" 1; CallExprvar "x" 2; CallExprvar "x" 3] ++
     CallEspresso [Or (map cube_expr example_batch)] ::
     calls (after_min (Or (map cube_expr example_batch))),
     outcome (after_min (Or (map cube_expr example_batch)))).
Proof.
  assert (cubes_to_dnf (E := Reference.engine) example_batch =
          ([CallExprvar "x" 1; CallExprvar "x" 2; CallExprvar "x" 3],
           inr (Or (map cube_expr example_batch)))) as Hd.
  { vm_compute. reflexivity. }
  split; [exact Hd |].
  apply (oracle_cardinality (E := Reference.engine) example_batch _ _ Hd).
  reflexivity.
Defined.

(** The specification's mismatch: cubes over {1,2,3} and {1,2,4}. *)
Lemma mismatch_raises_before_minimize_witness :
  (exists cube, In cube mismatch_batch /\
     magnitudes cube <> magnitudes (hd [] mismatch_batch)) /\
  backdoor_to_clauses (E := Reference.engine) mismatch_batch =
    ([], inl (AssertionError (Some ([1; 2; 4], [1; 2; 3])))) /\
  (forall args, ~ In (CallEspresso args)
                     (calls (backdoor_to_clauses (E := Reference.engine) mismatch_batch))).
Proof.
  assert (exists cube, In cube mismatch_batch /\
            magnitudes cube <> magnitudes (hd [] mismatch_batch)) as Hm.
  { exists [1; 2; 4]. split; [right; left; reflexivity | discriminate]. }
  split; [exact Hm |]. split; [vm_compute; reflexivity |].
  apply (mismatch_raises_before_minimize (E := Reference.engine) mismatch_batch Hm).
Defined.

(** The magnitudes of the output of [ties_batch] are 1, 2 and 3. *)
Lemma output_magnitudes_from_input_witness :
  Forall (Forall (fun lit => In (Z.abs lit) (magnitudes (concat ties_batch))))
         [[-1; 2; -3]; [-1; 2; 3]; [1; 2; 3]].
Proof.
  apply (output_magnitudes_from_input (E := Reference.engine) Reference.r_support
           ties_batch (calls (backdoor_to_clauses ties_batch))).
  vm_compute. reflexivity.
Defined.

(** Reading variable 7 back from a literal map, and the output of the
    example traced back, literal by literal, to the clauses of its CNF. *)
Lemma variable_id_round_trip_witness :
  decode_lit (E := Reference.engine) {[1 := Reference.r_var "x" 7]} [] (-1) =
    ([], inr ([] ++ [signed 7 (-1 <? 0)])) /\
  exists l1 dnf m result,
    cubes_to_dnf (E := Reference.engine) example_batch = (l1, inr dnf) /\
    espresso_exprs [dnf] = [m] /\
    Forall2 (carries_ids example_batch (fst (fst (encode_cnf (to_cnf (Not m))))))
            (snd (encode_cnf (to_cnf (Not m)))) result /\
    [[-1; -2; 3]; [-1; 2; -3]] = sort_by key_ltb clause_key result.
Proof.
  destruct (variable_id_round_trip (E := Reference.engine) Reference.r_support
              example_batch) as (_ & Hdec & Hout).
  split.
  - apply Hdec. reflexivity.
  - apply (Hout (calls (backdoor_to_clauses example_batch))
                [[-1; -2; 3]; [-1; 2; -3]]).
    vm_compute. reflexivity.
Defined.

(** A batch with the literal 0 in first position passes the check, and
    variable 0 is allocated. *)
Lemma zero_literal_accepted_witness :
  (zero_batch <> [] /\
   Forall (fun cube => magnitudes cube = magnitudes (hd [] zero_batch)) zero_batch) /\
  check_cubes (E := Reference.engine) zero_batch = ([], inr tt) /\
  In (CallExprvar "x" 0) (calls (encode_cubes (E := Reference.engine) zero_batch)).
Proof.
  assert (zero_batch <> []) as Hne by discriminate.
  assert (Forall (fun cube => magnitudes cube = magnitudes (hd [] zero_batch)) zero_batch)
    as Hall by (repeat constructor).
  split; [split; assumption |].
  destruct (zero_literal_accepted (E := Reference.engine) zero_batch Hne Hall)
    as (Hc & _ & _ & _ & H0).
  split; [exact Hc |]. apply H0. left. reflexivity.
Defined.

(** C3, as stated, fails: the two cubes of [reordered_batch] are over the
    same set of magnitudes, listed in two orders, and the input-contract
    violation is raised on the second. *)
Lemma same_set_other_order_raises :
  (forall cube, In cube reordered_batch ->
     same_magnitude_set cube (hd [] reordered_batch)) /\
  backdoor_to_clauses (E := Reference.engine) reordered_batch =
    ([], inl (AssertionError (Some ([2; 1], [1; 2])))) /\
  ~ ((exists e, outcome (backdoor_to_clauses (E := Reference.engine) reordered_batch)
                = inl e /\ is_contract_violation e = true) <->
     (exists cube, In cube reordered_batch /\
        ~ same_magnitude_set cube (hd [] reordered_batch))).
Proof.
  assert (forall cube, In cube reordered_batch ->
            same_magnitude_set cube (hd [] reordered_batch)) as Hsame.
  { intros cube [<- | [<- | []]]; intros v; simpl; tauto. }
  split; [exact Hsame |]. split; [vm_compute; reflexivity |].
  intros [Hraise _]. destruct Hraise as (cube & Hin & Hns).
  - eexists. split; vm_compute; reflexivity.
  - apply Hns, Hsame, Hin.
Qed.

(** * Further properties of the code *)

(** ** Literals as sign and magnitude *)

(** X1: [signed] undoes the split of a literal into [abs(lit)] and
    [lit < 0] that [cubes_to_dnf] makes, for every integer; the split gives
    back the index and the sign that [signed] was given when the index is
    positive, and only then does it give back every sign. *)
Theorem literal_sign_magnitude_round_trip :
  (forall lit, signed (Z.abs lit) (lit <? 0) = lit) /\
  (forall v s, 0 < v -> Z.abs (signed v s) = v /\ (signed v s <? 0) = s) /\
  (forall v, (forall s, (signed v s <? 0) = s) -> 0 < v).
Proof.
  split; [| split].
  - intros lit. unfold signed, bool2sign. destruct (Z.ltb_spec lit 0); lia.
  - intros v s Hv. split; [rewrite signed_abs; lia | now apply signed_sign].
  - intros v H. specialize (H true). unfold signed, bool2sign in H.
    apply Z.ltb_lt in H. lia.
Qed.

(** ** Outcomes of [cubes_to_dnf] *)

Section CubeEncoderOutcomes.
Context {E : BoolAlg} {O : Minimizer E}.

Lemma cubes_to_dnf_cases (cubes : list (list Z)) :
  (cubes = [] /\ outcome (cubes_to_dnf cubes) = inl IndexError) \/
  (cubes <> [] /\ check_cubes cubes <> ([], inr tt) /\
   exists msg, outcome (cubes_to_dnf cubes) = inl (AssertionError (Some msg))) \/
  (check_cubes cubes = ([], inr tt) /\ is_dnf (Or (map cube_expr cubes)) = false /\
   outcome (cubes_to_dnf cubes) = inl (AssertionError None)) \/
  (check_cubes cubes = ([], inr tt) /\ is_dnf (Or (map cube_expr cubes)) = true /\
   outcome (cubes_to_dnf cubes) = inr (Or (map cube_expr cubes))).
Proof.
  destruct (check_cubes_cases cubes) as [Hc | [Hc | [cube Hc]]].
  - rewrite (cubes_to_dnf_checked _ Hc). unfold outcome. simpl.
    destruct (is_dnf _); auto 10.
  - left. rewrite (cubes_to_dnf_failed_check _ _ Hc). split; [| reflexivity].
    rewrite check_cubes_spec in Hc. destruct cubes as [| first rest]; [reflexivity |].
    destruct (first_mismatch _ _); discriminate.
  - right. left. rewrite (cubes_to_dnf_failed_check _ _ Hc).
    split; [intros ->; discriminate |]. split; [rewrite Hc; discriminate |].
    unfold outcome. simpl. eauto.
Qed.

(** X2: [cubes_to_dnf] fails with [IndexError] exactly on the empty batch
    and with the bare [AssertionError] exactly when the batch passes the
    consistency check and the engine denies that the disjunction is a DNF;
    it returns exactly when the check passes and the engine accepts the
    shape; it raises nothing but [IndexError] and [AssertionError]: the
    lookups [var_map[var]] never fail. *)
Theorem cubes_to_dnf_outcomes (cubes : list (list Z)) :
  (outcome (cubes_to_dnf cubes) = inl IndexError <-> cubes = []) /\
  (outcome (cubes_to_dnf cubes) = inl (AssertionError None) <->
     (cubes <> [] /\
      Forall (fun cube => magnitudes cube = magnitudes (hd [] cubes)) cubes) /\
     is_dnf (Or (map cube_expr cubes)) = false) /\
  ((exists dnf, outcome (cubes_to_dnf cubes) = inr dnf) <->
     (cubes <> [] /\
      Forall (fun cube => magnitudes cube = magnitudes (hd [] cubes)) cubes) /\
     is_dnf (Or (map cube_expr cubes)) = true) /\
  (forall e, outcome (cubes_to_dnf cubes) = inl e ->
     e = IndexError \/ exists msg, e = AssertionError msg).
Proof.
  rewrite <- check_cubes_ok_iff.
  assert (check_cubes cubes = ([], inr tt) -> cubes <> []) as Hne.
  { intros H. apply check_cubes_ok_iff in H. tauto. }
  destruct (cubes_to_dnf_cases cubes)
    as [[Hnil Ho] | [(Hn & Hbad & msg & Ho) | [(Hok & Hd & Ho) | (Hok & Hd & Ho)]]];
    rewrite Ho.
  - split; [tauto |]. split; [split; [discriminate | intros [H _]; now apply Hne in H] |].
    split; [split; [intros [? [=]] | intros [H _]; now apply Hne in H] |].
    intros e [= <-]. auto.
  - split; [split; [discriminate | tauto] |].
    split; [split; [discriminate | tauto] |].
    split; [split; [intros [? [=]] | tauto] |].
    intros e [= <-]. eauto.
  - split; [split; [discriminate | intros H; now apply Hne in Hok] |].
    split; [tauto |].
    split; [split; [intros [? [=]] | intros [_ H]; congruence] |].
    intros e [= <-]. eauto.
  - split; [split; [discriminate | intros H; now apply Hne in Hok] |].
    split; [split; [discriminate | intros [_ H]; congruence] |].
    split; [split; eauto |].
    intros e [=].
Qed.

Lemma first_mismatch_split variables (cubes : list (list Z)) cube :
  first_mismatch variables cubes = Some cube ->
  exists pre post, cubes = pre ++ cube :: post /\
    Forall (fun c => magnitudes c = variables) pre /\ magnitudes cube <> variables.
Proof.
  unfold first_mismatch. induction cubes as [| c cubes IH]; simpl; [discriminate |].
  destruct (bool_decide (variables = magnitudes c)) eqn:Hb; simpl.
  - intros H. destruct (IH H) as (pre & post & -> & Hpre & Hne).
    exists (c :: pre), post. repeat split; [| exact Hne].
    constructor; [| exact Hpre]. apply bool_decide_eq_true in Hb. congruence.
  - intros [= ->]. exists [], cubes. repeat split; [constructor |].
    apply bool_decide_eq_false in Hb. congruence.
Qed.

(** X3: when [backdoor_to_clauses] raises the assertion with its message,
    no call has been made, the variables of the message are the magnitudes
    of the first cube, and the cube of the message is the first one, in the
    order of the batch, whose magnitudes differ from them: every cube before
    it agrees, and it is never the first cube. *)
Theorem violation_names_first_offender (easy : list (list Z)) l cube vars :
  backdoor_to_clauses easy = (l, inl (AssertionError (Some (cube, vars)))) ->
  l = [] /\ vars = magnitudes (hd [] easy) /\
  exists pre post, easy = pre ++ cube :: post /\ pre <> [] /\
    Forall (fun c => magnitudes c = vars) pre /\ magnitudes cube <> vars.
Proof.
  intros H. destruct (check_cubes_cases easy) as [Hc | [Hc | [cube' Hc]]].
  - pose proof (backdoor_checked_no_violation _ Hc _ (f_equal snd H)) as Hn.
    discriminate.
  - rewrite (backdoor_failed_check _ _ Hc) in H. discriminate.
  - rewrite (backdoor_failed_check _ _ Hc) in H. injection H as <- <- <-.
    split; [reflexivity |]. split; [reflexivity |].
    rewrite check_cubes_spec in Hc. destruct easy as [| first rest]; [discriminate |].
    simpl hd in *. destruct (first_mismatch _ _) as [c |] eqn:Hf; [| discriminate].
    injection Hc as <-.
    destruct (first_mismatch_split _ _ _ Hf) as (pre & post & Heq & Hpre & Hne).
    exists pre, post. repeat split; try assumption.
    intros ->. simpl in Heq. injection Heq as <- _. now apply Hne.
Qed.

(** ** Allocation of variables *)

Lemma lits_calls_fresh_only lits : forall var_map n v,
  In (CallExprvar n v) (lits_calls var_map lits) -> var_map !! v = None.
Proof.
  induction lits as [| lit lits IH]; simpl; intros var_map n v; [intros [] |].
  intros H. apply in_app_or in H as [H | H].
  - unfold alloc_calls in H. destruct (var_map !! Z.abs lit) eqn:Hl; [destruct H |].
    destruct H as [[= <- <-] | []]. exact Hl.
  - apply IH in H. unfold alloc in H. destruct (var_map !! Z.abs lit) eqn:Hl; [exact H |].
    destruct (decide (Z.abs lit = v)) as [<- | Hne].
    + rewrite lookup_insert_eq in H. discriminate.
    + now rewrite lookup_insert_ne in H.
Qed.

Lemma lits_calls_NoDup lits : forall var_map, NoDup (lits_calls var_map lits).
Proof.
  induction lits as [| lit lits IH]; simpl; intros var_map; [constructor |].
  unfold alloc_calls at 1. destruct (var_map !! Z.abs lit) eqn:Hl; simpl; [apply IH |].
  apply NoDup_cons_2; [| apply IH]. rewrite list_elem_of_In. intros Hin.
  apply lits_calls_fresh_only in Hin. unfold alloc in Hin. rewrite Hl in Hin.
  rewrite lookup_insert_eq in Hin. discriminate.
Qed.

(** X4: the cube encoder calls [exprvar] once for each magnitude of the
    batch and for nothing else: its calls hold no call twice, and they are
    the calls [exprvar("x", v)] for the magnitudes [v] of the literals. *)
Theorem each_magnitude_allocated_once (cubes : list (list Z)) :
  NoDup (calls (encode_cubes cubes)) /\
  forall ev, In ev (calls (encode_cubes cubes)) <->
             exists v, ev = CallExprvar "x" v /\ In v (magnitudes (concat cubes)).
Proof.
  rewrite encode_cubes_spec. unfold calls. simpl. split; [apply lits_calls_NoDup |].
  intros ev. split.
  - intros Hin. pose proof (lits_calls_only (concat cubes) ∅) as HF.
    rewrite List.Forall_forall in HF. now apply HF.
  - intros (v & -> & Hv). apply lits_calls_fresh; [exact Hv | apply lookup_empty].
Qed.

Lemma lits_calls_known lits : forall var_map,
  (forall lit, In lit lits -> is_Some (var_map !! Z.abs lit)) ->
  lits_calls var_map lits = [] /\ fold_left alloc lits var_map = var_map.
Proof.
  induction lits as [| lit lits IH]; simpl; intros var_map Hall; [auto |].
  destruct (Hall lit (or_introl eq_refl)) as [h Hh].
  unfold alloc_calls, alloc at 1 3. rewrite Hh. simpl. apply IH. auto.
Qed.

(** X5: on a batch that passes the consistency check, every variable is
    allocated while the first cube is encoded: the whole batch makes the
    calls, and ends with the variable map, of the first cube alone. *)
Theorem allocation_ends_with_first_cube (cubes : list (list Z)) :
  cubes <> [] ->
  Forall (fun cube => magnitudes cube = magnitudes (hd [] cubes)) cubes ->
  exists log var_map cubes_expr first_expr,
    encode_cubes cubes = (log, inr (var_map, cubes_expr)) /\
    encode_cubes [hd [] cubes] = (log, inr (var_map, first_expr)).
Proof.
  intros Hne Hall. destruct cubes as [| first rest]; [congruence |]. simpl hd in *.
  rewrite !encode_cubes_spec. simpl concat. rewrite app_nil_r.
  rewrite lits_calls_app, fold_left_app.
  destruct (lits_calls_known (concat rest) (fold_left alloc first ∅)) as [Hcalls Hmap].
  { intros lit Hlit. apply in_concat in Hlit as (cube & Hcube & Hlit).
    apply Forall_inv_tail in Hall. rewrite List.Forall_forall in Hall.
    specialize (Hall _ Hcube). exists (exprvar "x" (Z.abs lit)).
    apply fold_alloc_lookup; [apply var_map_ok_empty |].
    rewrite <- Hall. unfold magnitudes. now apply in_map. }
  rewrite Hcalls, Hmap, app_nil_r. eauto 8.
Qed.

Lemma lits_calls_magnitudes l1 : forall l2 var_map,
  magnitudes l1 = magnitudes l2 ->
  lits_calls var_map l1 = lits_calls var_map l2 /\
  fold_left alloc l1 var_map = fold_left alloc l2 var_map.
Proof.
  induction l1 as [| a l1 IH]; intros [| b l2] var_map; simpl; try discriminate; [auto |].
  intros [= Hab Hl].
  assert (alloc_calls var_map a = alloc_calls var_map b) as ->
    by (unfold alloc_calls; now rewrite Hab).
  assert (alloc var_map a = alloc var_map b) as ->
    by (unfold alloc; now rewrite Hab).
  destruct (IH l2 (alloc var_map b) Hl) as [-> ->]. auto.
Qed.

Lemma magnitudes_concat (cubes : list (list Z)) :
  magnitudes (concat cubes) = concat (map magnitudes cubes).
Proof. unfold magnitudes. apply concat_map. Qed.

(** X6: validation and allocation never look at a sign: two batches with
    the same magnitudes, position by position, pass or fail the consistency
    check together, and are encoded with the same calls and the same
    variable map. *)
Theorem validation_and_allocation_ignore_signs (cubes cubes' : list (list Z)) :
  map magnitudes cubes = map magnitudes cubes' ->
  (check_cubes cubes = ([], inr tt) <-> check_cubes cubes' = ([], inr tt)) /\
  exists log var_map cubes_expr cubes_expr',
    encode_cubes cubes = (log, inr (var_map, cubes_expr)) /\
    encode_cubes cubes' = (log, inr (var_map, cubes_expr')).
Proof.
  intros Hm. split.
  - assert (forall cs : list (list Z),
             check_cubes cs = ([], inr tt) <->
             map magnitudes cs <> [] /\
             Forall (fun m => m = hd [] (map magnitudes cs)) (map magnitudes cs)) as Hchk.
    { intros cs. rewrite check_cubes_ok_iff. destruct cs as [| c cs].
      - simpl. split; intros [H _]; congruence.
      - change (hd [] (map magnitudes (c :: cs))) with (magnitudes c).
        change (hd [] (c :: cs)) with c. rewrite List.Forall_map.
        split; intros [_ H]; (split; [simpl; discriminate | exact H]). }
    now rewrite !Hchk, Hm.
  - rewrite !encode_cubes_spec.
    destruct (lits_calls_magnitudes (concat cubes) (concat cubes') ∅) as [-> ->];
      [| eauto 8].
    now rewrite !magnitudes_concat, Hm.
Qed.
End CubeEncoderOutcomes.

(** ** Outcomes of [cnf_to_clauses] *)

Section ClauseEncoderOutcomes.
Context {E : BoolAlg} {O : Minimizer E}.

Lemma decode_lit_spec (litmap : gmap Z expr) c lit :
  decode_lit litmap c lit =
  ([], match lit_result litmap lit with
       | inl e => inl e
       | inr y => inr (c ++ [y])
       end).
Proof.
  unfold decode_lit, lit_result, dict_getitem, get_indices, getitem.
  destruct (litmap !! Z.abs lit) as [h |]; [| reflexivity]. rewrite bind_ret_l.
  destruct (indices h) as [[| v t] |]; reflexivity.
Qed.

Lemma decode_lits_spec (litmap : gmap Z expr) clause : forall c,
  for_acc clause c (decode_lit litmap) =
  ([], match lits_result litmap clause with
       | inl e => inl e
       | inr ys => inr (c ++ ys)
       end).
Proof.
  induction clause as [| lit clause IH]; intros c.
  - simpl. now rewrite app_nil_r.
  - rewrite for_acc_cons, decode_lit_spec. simpl lits_result.
    destruct (lit_result litmap lit) as [e | y]; [reflexivity |].
    cbn [bind]. rewrite IH. destruct (lits_result litmap clause); [reflexivity |].
    simpl. now rewrite <- app_assoc.
Qed.

Lemma decode_clauses_spec (litmap : gmap Z expr) clauses : forall result,
  for_acc clauses result (decode_clause litmap) =
  ([], match clauses_result litmap clauses with
       | inl e => inl e
       | inr cs => inr (result ++ cs)
       end).
Proof.
  induction clauses as [| clause clauses IH]; intros result.
  - simpl. now rewrite app_nil_r.
  - rewrite for_acc_cons. unfold decode_clause at 1. rewrite decode_lits_spec.
    simpl clauses_result. destruct (lits_result litmap clause) as [e | c]; [reflexivity |].
    cbn [bind ret app]. rewrite IH. destruct (clauses_result litmap clauses); [reflexivity |].
    simpl. now rewrite <- app_assoc.
Qed.

(** [cnf_to_clauses] as a function of what the engine answers. *)
Lemma cnf_to_clauses_spec cnf :
  cnf_to_clauses cnf =
  if is_cnf cnf then
    ([CallEncodeCnf cnf],
     match clauses_result (fst (fst (encode_cnf cnf))) (snd (encode_cnf cnf)) with
     | inl e => inl e
     | inr cs => inr (sort_by key_ltb clause_key cs)
     end)
  else ([], inl (AssertionError None)).
Proof.
  unfold cnf_to_clauses, py_assert. destruct (is_cnf cnf); [| reflexivity].
  rewrite bind_ret_l. unfold call_encode_cnf. rewrite bind_assoc. unfold tell. cbn [bind].
  rewrite bind_ret_l. destruct (encode_cnf cnf) as [[litmap nvars] clauses].
  simpl fst; simpl snd. rewrite decode_clauses_spec.
  destruct (clauses_result litmap clauses); reflexivity.
Qed.

Lemma lit_result_ok_iff (litmap : gmap Z expr) lit :
  (exists y, lit_result litmap lit = inr y) <->
  exists h v t, litmap !! Z.abs lit = Some h /\ indices h = Some (v :: t).
Proof.
  unfold lit_result. split.
  - intros [y Hy]. destruct (litmap !! Z.abs lit) as [h |]; [| discriminate].
    destruct (indices h) as [[| v t] |] eqn:Hi; try discriminate. eauto 6.
  - intros (h & v & t & -> & ->). eauto.
Qed.

Lemma lits_result_ok_iff (litmap : gmap Z expr) clause :
  (exists ys, lits_result litmap clause = inr ys) <->
  Forall (fun lit => exists y, lit_result litmap lit = inr y) clause.
Proof.
  induction clause as [| lit clause IH]; simpl.
  - split; [constructor | eauto].
  - rewrite List.Forall_cons_iff, <- IH.
    destruct (lit_result litmap lit) as [e | y].
    + split; [intros [ys [=]] | intros [[y [=]] _]].
    + destruct (lits_result litmap clause) as [e | ys].
      * split; [intros [? [=]] | intros [_ [? [=]]]].
      * split; eauto.
Qed.

Lemma clauses_result_ok_iff (litmap : gmap Z expr) clauses :
  (exists cs, clauses_result litmap clauses = inr cs) <->
  Forall (Forall (fun lit => exists y, lit_result litmap lit = inr y)) clauses.
Proof.
  induction clauses as [| clause clauses IH]; simpl.
  - split; [constructor | eauto].
  - rewrite List.Forall_cons_iff, <- IH, <- lits_result_ok_iff.
    destruct (lits_result litmap clause) as [e | c].
    + split; [intros [? [=]] | intros [[? [=]] _]].
    + destruct (clauses_result litmap clauses) as [e | cs].
      * split; [intros [? [=]] | intros [_ [? [=]]]].
      * split; eauto.
Qed.

(** X7: [cnf_to_clauses] returns a clause list exactly when the engine
    accepts the expression as a CNF and the literal map has, for every
    literal of every clause, a handle whose [indices] exist and are not
    empty. *)
Theorem cnf_to_clauses_returns_iff cnf :
  (exists cls, outcome (cnf_to_clauses cnf) = inr cls) <->
  is_cnf cnf = true /\
  Forall (Forall (fun lit => exists h v t,
            fst (fst (encode_cnf cnf)) !! Z.abs lit = Some h /\
            indices h = Some (v :: t)))
         (snd (encode_cnf cnf)).
Proof.
  rewrite cnf_to_clauses_spec.
  assert (Forall (Forall (fun lit => exists h v t,
            fst (fst (encode_cnf cnf)) !! Z.abs lit = Some h /\
            indices h = Some (v :: t))) (snd (encode_cnf cnf)) <->
          exists cs, clauses_result (fst (fst (encode_cnf cnf))) (snd (encode_cnf cnf))
                     = inr cs) as ->.
  { rewrite clauses_result_ok_iff. apply Forall_proper; [| reflexivity].
    intros clause. apply Forall_proper; [| reflexivity].
    intros lit. symmetry. apply lit_result_ok_iff. }
  destruct (is_cnf cnf); unfold outcome; simpl.
  - destruct (clauses_result _ _) as [e | cs].
    + split; [intros [? [=]] | intros [_ [? [=]]]].
    + split; eauto.
  - split; [intros [? [=]] | intros [[=] _]].
Qed.

Lemma lits_result_first_error (litmap : gmap Z expr) clause e :
  lits_result litmap clause = inl e ->
  exists pre lit post, clause = pre ++ lit :: post /\
    Forall (fun x => exists y, lit_result litmap x = inr y) pre /\
    lit_result litmap lit = inl e.
Proof.
  induction clause as [| lit clause IH]; simpl; [discriminate |].
  destruct (lit_result litmap lit) as [e' | y] eqn:Hl.
  - intros [= ->]. exists [], lit, clause. repeat split; [constructor | exact Hl].
  - destruct (lits_result litmap clause) as [e' | ys]; [| discriminate].
    intros [= ->]. destruct (IH eq_refl) as (pre & x & post & -> & Hpre & Hx).
    exists (lit :: pre), x, post. repeat split; [| exact Hx].
    constructor; eauto.
Qed.

Lemma clauses_result_first_error (litmap : gmap Z expr) clauses e :
  clauses_result litmap clauses = inl e ->
  exists pre lit post, concat clauses = pre ++ lit :: post /\
    Forall (fun x => exists y, lit_result litmap x = inr y) pre /\
    lit_result litmap lit = inl e.
Proof.
  induction clauses as [| clause clauses IH]; simpl; [discriminate |].
  destruct (lits_result litmap clause) as [e' | c] eqn:Hc.
  - intros [= ->]. destruct (lits_result_first_error _ _ _ Hc) as (pre & x & post & -> & Hpre & Hx).
    exists pre, x, (post ++ concat clauses). rewrite <- app_assoc. auto.
  - destruct (clauses_result litmap clauses) as [e' | cs]; [| discriminate].
    intros [= ->]. destruct (IH eq_refl) as (pre & x & post & -> & Hpre & Hx).
    exists (clause ++ pre), x, post. rewrite <- app_assoc. repeat split; [| exact Hx].
    apply Forall_app. split; [| exact Hpre].
    apply lits_result_ok_iff. eauto.
Qed.

(** X8: when [cnf_to_clauses] fails, either the engine denies the CNF shape
    and the bare [AssertionError] is raised before [encode_cnf] is called,
    or [encode_cnf] has been called and the failure is that of the first
    literal, in the order of the clauses and of the literals in them, that
    cannot be decoded: [KeyError] with its absolute value when the literal
    map has no handle for it, [AttributeError] when the handle has no
    [indices], [IndexError] when they are empty. *)
Theorem cnf_to_clauses_first_error cnf l e :
  cnf_to_clauses cnf = (l, inl e) ->
  (is_cnf cnf = false /\ l = [] /\ e = AssertionError None) \/
  (is_cnf cnf = true /\ l = [CallEncodeCnf cnf] /\
   exists pre lit post,
     concat (snd (encode_cnf cnf)) = pre ++ lit :: post /\
     Forall (fun x => exists y, lit_result (fst (fst (encode_cnf cnf))) x = inr y) pre /\
     lit_result (fst (fst (encode_cnf cnf))) lit = inl e /\
     (forall k, e = KeyError k ->
        k = Z.abs lit /\ fst (fst (encode_cnf cnf)) !! k = None)).
Proof.
  rewrite cnf_to_clauses_spec. destruct (is_cnf cnf).
  - destruct (clauses_result _ _) as [e' | cs] eqn:Hr; [| discriminate].
    intros [= <- <-]. right. split; [reflexivity |]. split; [reflexivity |].
    destruct (clauses_result_first_error _ _ _ Hr) as (pre & lit & post & Heq & Hpre & Hlit).
    exists pre, lit, post. repeat split; try assumption.
    + unfold lit_result in Hlit. subst e'.
      destruct (fst (fst (encode_cnf cnf)) !! Z.abs lit) as [h |].
      * destruct (indices h) as [[| v t] |]; discriminate.
      * congruence.
    + unfold lit_result in Hlit. subst e'.
      destruct (fst (fst (encode_cnf cnf)) !! Z.abs lit) as [h |] eqn:Hl.
      * destruct (indices h) as [[| v t] |]; discriminate.
      * injection Hlit as <-. exact Hl.
  - intros [= <- <-]. auto.
Qed.

(** X9: [cnf_to_clauses] drops, merges and deduplicates nothing: it returns
    as many clauses as [encode_cnf] gave, with the same sizes. *)
Theorem cnf_to_clauses_keeps_every_clause cnf l cls :
  cnf_to_clauses cnf = (l, inr cls) ->
  length cls = length (snd (encode_cnf cnf)) /\
  Permutation (map length cls) (map (@length Z) (snd (encode_cnf cnf))).
Proof.
  intros H. apply cnf_to_clauses_ok_inv in H as (_ & result & HF & ->).
  assert (map (@length Z) result = map (@length Z) (snd (encode_cnf cnf))) as Hlen.
  { clear -HF. induction HF as [| clause out ? ? (c & Hc & ->) _ IH]; simpl; [reflexivity |].
    rewrite IH. f_equal.
    rewrite <- (Permutation_length (sort_by_perm Z.ltb Z.abs c)).
    clear -Hc. induction Hc; simpl; congruence. }
  pose proof (sort_by_perm key_ltb clause_key result) as Hp. split.
  - rewrite <- (Permutation_length Hp), <- (length_map (@length Z) result), Hlen.
    apply length_map.
  - rewrite <- Hlen. apply Permutation_map. now apply Permutation_sym.
Qed.
End ClauseEncoderOutcomes.

(** ** The order of the calls *)

Section Stages.
Context {E : BoolAlg} {O : Minimizer E}.

Lemma after_min_spec m :
  after_min m =
  (CallToCnf (Not m) :: calls (cnf_to_clauses (to_cnf (Not m))),
   outcome (cnf_to_clauses (to_cnf (Not m)))).
Proof.
  unfold after_min, call_to_cnf. rewrite bind_assoc. unfold tell. cbn [bind].
  rewrite bind_ret_l. now destruct (cnf_to_clauses (to_cnf (Not m))).
Qed.

Lemma cubes_to_dnf_calls_alloc (easy : list (list Z)) :
  Forall is_alloc (calls (cubes_to_dnf easy)).
Proof.
  destruct (check_cubes_cases easy) as [Hc | [Hc | [cube Hc]]].
  - rewrite (cubes_to_dnf_checked _ Hc). unfold calls. simpl.
    eapply List.Forall_impl; [| apply lits_calls_only].
    intros ev (v & -> & _). now exists v.
  - rewrite (cubes_to_dnf_failed_check _ _ Hc). constructor.
  - rewrite (cubes_to_dnf_failed_check _ _ Hc). constructor.
Qed.

(** The four ways a run can go, with its calls. *)
Lemma backdoor_to_clauses_cases (easy : list (list Z)) :
  let dnf := Or (map cube_expr easy) in
  (exists e, outcome (cubes_to_dnf easy) = inl e /\
     backdoor_to_clauses easy = (calls (cubes_to_dnf easy), inl e)) \/
  (outcome (cubes_to_dnf easy) = inr dnf /\
   length (espresso_exprs [dnf]) <> 1%nat /\
   exists u, backdoor_to_clauses easy =
     (calls (cubes_to_dnf easy) ++ [CallEspresso [dnf]], inl (ValueError u))) \/
  (exists m, outcome (cubes_to_dnf easy) = inr dnf /\ espresso_exprs [dnf] = [m] /\
     is_cnf (to_cnf (Not m)) = false /\
     backdoor_to_clauses easy =
     (calls (cubes_to_dnf easy) ++ [CallEspresso [dnf]; CallToCnf (Not m)],
      inl (AssertionError None))) \/
  (exists m, outcome (cubes_to_dnf easy) = inr dnf /\ espresso_exprs [dnf] = [m] /\
     is_cnf (to_cnf (Not m)) = true /\
     calls (backdoor_to_clauses easy) =
     calls (cubes_to_dnf easy) ++
     [CallEspresso [dnf]; CallToCnf (Not m); CallEncodeCnf (to_cnf (Not m))]).
Proof.
  intros dnf. rewrite backdoor_to_clauses_unfold.
  destruct (cubes_to_dnf easy) as [l0 [e | d]] eqn:Hd.
  - left. exists e. split; reflexivity.
  - right. apply cubes_to_dnf_ok_inv in Hd as (_ & _ & -> & _). fold dnf.
    rewrite (bind_ok _ _ l0 dnf eq_refl). unfold calls, outcome. simpl fst; simpl snd.
    destruct (Nat.eq_dec (length (espresso_exprs [dnf])) 1%nat) as [Hone | Hn].
    + right. destruct (espresso_exprs [dnf]) as [| m [| m' t]] eqn:Hm; try discriminate.
      rewrite (after_dnf_single _ _ Hm), after_min_spec, cnf_to_clauses_spec.
      destruct (is_cnf (to_cnf (Not m))) eqn:Hcnf.
      * right. exists m. repeat split; try assumption.
      * left. exists m. repeat split; try assumption.
    + left. split; [reflexivity |]. split; [exact Hn |].
      destruct (after_dnf_not_single _ Hn) as [u ->]. exists u. reflexivity.
Qed.

(** X10: the collaborators are called in the order of the pipeline, each at
    most once: after the allocations of the cube encoder come, as far as
    the run gets, one call of the minimizer on the one-element tuple of the
    DNF, one CNF conversion of the negation of its result and one
    [encode_cnf] of that CNF; a run that returns has made all three. *)
Theorem calls_follow_the_pipeline (easy : list (list Z)) :
  exists tail,
    calls (backdoor_to_clauses easy) = calls (cubes_to_dnf easy) ++ tail /\
    Forall is_alloc (calls (cubes_to_dnf easy)) /\
    (tail = [] \/
     tail = [CallEspresso [Or (map cube_expr easy)]] \/
     exists m, espresso_exprs [Or (map cube_expr easy)] = [m] /\
       (tail = [CallEspresso [Or (map cube_expr easy)]; CallToCnf (Not m)] \/
        tail = [CallEspresso [Or (map cube_expr easy)]; CallToCnf (Not m);
                CallEncodeCnf (to_cnf (Not m))])) /\
    (forall cls, outcome (backdoor_to_clauses easy) = inr cls ->
       exists m, espresso_exprs [Or (map cube_expr easy)] = [m] /\
         tail = [CallEspresso [Or (map cube_expr easy)]; CallToCnf (Not m);
                 CallEncodeCnf (to_cnf (Not m))]).
Proof.
  pose proof (cubes_to_dnf_calls_alloc easy) as Halloc.
  destruct (backdoor_to_clauses_cases easy)
    as [(e & _ & Hb) | [(_ & _ & u & Hb) | [(m & _ & Hm & _ & Hb) | (m & _ & Hm & _ & Hb)]]].
  - exists []. rewrite Hb, app_nil_r. repeat split; auto. intros cls [=].
  - eexists. rewrite Hb. repeat split; auto. intros cls [=].
  - eexists. rewrite Hb. repeat split; [exact Halloc | eauto 6 |]. intros cls [=].
  - eexists. split; [exact Hb |]. split; [exact Halloc |]. split; eauto 8.
Qed.

(** X11: the two shape assertions stop the pipeline where they stand: when
    the engine denies the DNF shape the run ends with the bare
    [AssertionError] before the minimizer is called, and when it denies the
    CNF shape the run ends with it after the CNF conversion and before
    [encode_cnf] is called. *)
Theorem shape_assertions_stop_the_run (easy : list (list Z)) :
  easy <> [] ->
  Forall (fun cube => magnitudes cube = magnitudes (hd [] easy)) easy ->
  (is_dnf (Or (map cube_expr easy)) = false ->
     backdoor_to_clauses easy =
     (calls (cubes_to_dnf easy), inl (AssertionError None)) /\
     Forall is_alloc (calls (backdoor_to_clauses easy))) /\
  (forall m, is_dnf (Or (map cube_expr easy)) = true ->
     espresso_exprs [Or (map cube_expr easy)] = [m] ->
     is_cnf (to_cnf (Not m)) = false ->
     backdoor_to_clauses easy =
     (calls (cubes_to_dnf easy) ++
      [CallEspresso [Or (map cube_expr easy)]; CallToCnf (Not m)],
      inl (AssertionError None))).
Proof.
  intros Hne Hall.
  assert (check_cubes easy = ([], inr tt)) as Hc by now apply check_cubes_ok_iff.
  pose proof (cubes_to_dnf_checked _ Hc) as Hd. split.
  - intros Hdnf. rewrite Hdnf in Hd.
    assert (backdoor_to_clauses easy =
            (calls (cubes_to_dnf easy), inl (AssertionError None))) as Hb.
    { rewrite backdoor_to_clauses_unfold, Hd. reflexivity. }
    split; [exact Hb |]. rewrite Hb. apply cubes_to_dnf_calls_alloc.
  - intros m Hdnf Hm Hcnf. rewrite Hdnf in Hd.
    rewrite backdoor_to_clauses_unfold, Hd, (bind_ok _ _ _ _ eq_refl).
    rewrite (after_dnf_single _ _ Hm), after_min_spec, cnf_to_clauses_spec, Hcnf.
    reflexivity.
Qed.
End Stages.

(** ** The stages under the contract of the collaborators *)

Section StageMeaning.
Context {E : BoolAlg} {O : Minimizer E}.
Context (eval : (string -> Z -> bool) -> expr -> bool) `{!MeaningLaws eval}.
Context (support : expr -> list (string * Z)) `{!VariableLaws support}.

(** X12: the DNF that [cubes_to_dnf] returns means the disjunction of the
    cubes, each read as the conjunction of its literals, whatever the
    literals are (0 counts as the positive literal of variable 0). *)
Theorem cubes_to_dnf_means_some_cube (cubes : list (list Z)) l dnf :
  cubes_to_dnf cubes = (l, inr dnf) ->
  forall rho, eval (env rho) dnf = cubes_hold rho cubes.
Proof.
  intros H rho. apply cubes_to_dnf_ok_inv in H as (_ & _ & -> & _).
  apply (eval_dnf eval).
Qed.

(** X13: on a CNF whose variables all have a positive index, the clause
    list that [cnf_to_clauses] returns means what the CNF means, under the
    assignment that gives a variable the value of its index: the name of a
    variable plays no part. *)
Theorem cnf_to_clauses_means_the_cnf cnf l cls :
  cnf_to_clauses cnf = (l, inr cls) ->
  (forall n i, In (n, i) (support cnf) -> 0 < i) ->
  forall rho, clauses_hold rho cls = eval (env rho) cnf.
Proof.
  intros H Hpos rho. apply cnf_to_clauses_ok_inv in H as (Hcnf & result & HF & ->).
  unfold clauses_hold. rewrite <- (forallb_perm _ _ _ (sort_by_perm _ _ result)).
  rewrite (encode_cnf_equiv _ _ Hcnf). symmetry.
  apply (Forall2_forallb _ _ _ _ _ HF). intros clause c Hclause (c0 & HF0 & ->).
  unfold clause_holds. rewrite <- (existsb_perm _ _ _ (sort_by_perm _ _ c0)).
  apply (Forall2_existsb _ _ _ _ _ HF0). intros lit y Hlit Hdec.
  destruct (decoded_origin support _ _ _ _ Hcnf Hclause Hlit Hdec)
    as (n & i & Hni & Hs & ->).
  unfold engine_lit. rewrite Hni, eval_exprvar. unfold env.
  rewrite lit_holds_signed; [reflexivity |]. eapply Hpos, Hs.
Qed.

(** X14: a variable of index 0 loses its polarity in [cnf_to_clauses]: a
    literal of the CNF whose handle is such a variable is emitted as 0,
    and when the literal is negative the emitted 0, read as a literal,
    means the opposite of what the literal means. *)
Theorem index_zero_loses_polarity (litmap : gmap Z expr) c lit n :
  litmap !! Z.abs lit = Some (exprvar n 0) ->
  decode_lit litmap c lit = ([], inr (c ++ [0])) /\
  (lit < 0 -> forall rho, lit_holds rho 0 = negb (engine_lit eval (env rho) litmap lit)).
Proof.
  intros Hl. split.
  - rewrite (decode_lit_exprvar support litmap c lit n 0 Hl).
    unfold signed, bool2sign. now destruct (lit <? 0).
  - intros Hneg rho. unfold engine_lit. rewrite Hl, eval_exprvar.
    apply Z.ltb_lt in Hneg. rewrite Hneg. unfold lit_holds, env. simpl.
    change (Z.abs 0) with 0. now destruct (rho 0).
Qed.

(** X15: when no literal of the batch is 0, no literal of the returned
    clauses is 0. *)
Theorem output_literals_nonzero (easy : list (list Z)) l cls :
  Forall (Forall (fun lit => lit <> 0)) easy ->
  backdoor_to_clauses easy = (l, inr cls) ->
  Forall (Forall (fun lit => lit <> 0)) cls.
Proof.
  intros Hnz H. rewrite List.Forall_forall. intros c Hc.
  rewrite List.Forall_forall. intros y Hy.
  destruct (output_origin support _ _ _ _ _ H Hc Hy)
    as (l1 & dnf & m & clause & lit & v & _ & _ & _ & _ & _ & Hv & ->).
  pose proof (magnitudes_pos _ _ Hnz Hv) as Hpos.
  pose proof (signed_abs v (lit <? 0)). lia.
Qed.
End StageMeaning.

(** ** The canonical order: fixed points, ties, independence of the input order *)

Section SortMore.
Context {A K : Type} (ltb : K -> K -> bool) (key : A -> K) (le : A -> A -> Prop).

Lemma sort_by_fixed l :
  (forall x y, le x y -> ltb (key y) (key x) = false) ->
  StronglySorted le l -> sort_by ltb key l = l.
Proof.
  intros Hle. induction 1 as [| x l Hs IH Hx]; simpl; [reflexivity |].
  rewrite IH. destruct l as [| y l']; [reflexivity |]. simpl.
  now rewrite (Hle x y (Forall_inv Hx)).
Qed.

Lemma insert_by_filter (p : K -> bool) x l :
  (forall a b, ltb (key b) (key a) = true -> p (key a) = true -> p (key b) = false) ->
  List.filter (fun a => p (key a)) (insert_by ltb key x l) =
  List.filter (fun a => p (key a)) (x :: l).
Proof.
  intros Hp. induction l as [| y l IH]; [reflexivity |]. simpl insert_by.
  destruct (ltb (key y) (key x)) eqn:Hlt; [| reflexivity].
  simpl in *. rewrite IH. destruct (p (key x)) eqn:Hx; [| reflexivity].
  now rewrite (Hp x y Hlt Hx).
Qed.

Lemma sort_by_filter (p : K -> bool) l :
  (forall a b, ltb (key b) (key a) = true -> p (key a) = true -> p (key b) = false) ->
  List.filter (fun a => p (key a)) (sort_by ltb key l) =
  List.filter (fun a => p (key a)) l.
Proof.
  intros Hp. induction l as [| x l IH]; [reflexivity |]. simpl sort_by.
  rewrite insert_by_filter by exact Hp. simpl. now rewrite IH.
Qed.

Lemma sorted_perm_unique l1 : forall l2,
  StronglySorted le l1 -> StronglySorted le l2 -> Permutation l1 l2 ->
  (forall x y, In x l1 -> In y l1 -> le x y -> le y x -> x = y) ->
  l1 = l2.
Proof.
  induction l1 as [| x l1 IH]; intros l2 H1 H2 Hp Hanti.
  - apply Permutation_nil in Hp. now subst.
  - destruct l2 as [| y l2]; [apply Permutation_sym, Permutation_nil in Hp; discriminate |].
    apply StronglySorted_inv in H1 as [H1 Hx]. apply StronglySorted_inv in H2 as [H2 Hy].
    rewrite List.Forall_forall in Hx, Hy.
    assert (x = y) as <-.
    { assert (In x (y :: l2)) as Hxin by (eapply Permutation_in; [exact Hp | now left]).
      assert (In y (x :: l1)) as Hyin
        by (eapply Permutation_in; [apply Permutation_sym, Hp | now left]).
      destruct Hxin as [-> | Hxin]; [reflexivity |].
      destruct Hyin as [-> | Hyin]; [reflexivity |].
      apply Hanti; [now left | now right | now apply Hx | now apply Hy]. }
    f_equal. apply IH; try assumption.
    + eapply Permutation_cons_inv, Hp.
    + intros a b Ha Hb. apply Hanti; now right.
Qed.
End SortMore.

Section CanonicalOrder.

Lemma tuple_lt_ltb s t : tuple_lt s t -> tuple_ltb s t = true.
Proof.
  induction 1 as [y t | x y s t Hxy | x s t _ IH]; simpl.
  - reflexivity.
  - destruct (x =? y) eqn:He; [apply Z.eqb_eq in He; lia | now apply Z.ltb_lt].
  - now rewrite Z.eqb_refl.
Qed.

Lemma tuple_lt_asym s t : tuple_lt s t -> tuple_lt t s -> False.
Proof.
  induction 1 as [y t | x y s t Hxy | x s t _ IH]; intros H; inversion H; subst;
    try lia; auto.
Qed.

Lemma tuple_lt_irrefl s : ~ tuple_lt s s.
Proof. intros H. exact (tuple_lt_asym _ _ H H). Qed.

Lemma tuple_le_antisym s t : tuple_le s t -> tuple_le t s -> s = t.
Proof.
  intros [-> | Hst] [Heq | Hts]; try reflexivity; try (now symmetry).
  destruct (tuple_lt_asym _ _ Hst Hts).
Qed.

Lemma key_ltb_irrefl k : key_ltb k k = false.
Proof.
  unfold key_ltb. rewrite Nat.eqb_refl.
  destruct (tuple_ltb (snd k) (snd k)) eqn:H; [| reflexivity].
  apply tuple_ltb_true in H. now apply tuple_lt_irrefl in H.
Qed.

Lemma clause_key_eq c d : map Z.abs c = map Z.abs d -> clause_key c = clause_key d.
Proof.
  intros H. unfold clause_key. rewrite H. f_equal.
  rewrite <- (length_map Z.abs c), <- (length_map Z.abs d). now rewrite H.
Qed.

Lemma clause_le_antisym c d : clause_le c d -> clause_le d c -> map Z.abs c = map Z.abs d.
Proof.
  unfold clause_le. intros [H1 | [H1 T1]] [H2 | [H2 T2]]; try lia.
  now apply tuple_le_antisym.
Qed.

Lemma clause_le_not_ltb c d :
  clause_le c d -> key_ltb (clause_key d) (clause_key c) = false.
Proof.
  intros Hle. destruct (key_ltb (clause_key d) (clause_key c)) eqn:H; [| reflexivity].
  pose proof (clause_le_of_ltb _ _ H) as Hdc.
  rewrite (clause_key_eq _ _ (clause_le_antisym _ _ Hle Hdc)) in H.
  now rewrite key_ltb_irrefl in H.
Qed.

Lemma lit_le_not_ltb x y : lit_le x y -> (Z.abs y <? Z.abs x) = false.
Proof. unfold lit_le. intros H. apply Z.ltb_ge. lia. Qed.

Context {E : BoolAlg}.

(** X16: the list that [cnf_to_clauses] returns is a fixed point of its own
    canonicalisation: sorting its clauses again by the key of line 76, or
    the literals of any of its clauses again by the key of line 72, changes
    nothing. *)
Theorem canonical_output_is_fixed_point cnf l cls :
  cnf_to_clauses cnf = (l, inr cls) ->
  sort_by key_ltb clause_key cls = cls /\
  Forall (fun c => sort_by Z.ltb Z.abs c = c) cls.
Proof.
  intros H. apply cnf_to_clauses_ok_inv in H as (_ & result & HF & ->). split.
  - apply (sort_by_fixed _ _ clause_le); [exact clause_le_not_ltb |].
    apply sort_clauses_sorted.
  - rewrite List.Forall_forall. intros c Hc.
    apply (Permutation_in _ (Permutation_sym (sort_by_perm _ _ _))) in Hc.
    destruct (Forall2_In_r _ _ _ _ HF Hc) as (clause & _ & c0 & _ & ->).
    apply (sort_by_fixed _ _ lit_le); [exact lit_le_not_ltb | apply sort_lits_sorted].
Qed.

(** X17: the sort of line 76 is stable, and its key ties exactly the
    clauses with the same sequence of absolute values: neither of two
    clauses is below the other exactly then, the clauses with a given
    sequence of absolute values leave the sort in the order in which they
    entered it, and two of them are left as they came. *)
Theorem clause_sort_keeps_ties_in_order :
  (forall c d,
     key_ltb (clause_key c) (clause_key d) = false /\
     key_ltb (clause_key d) (clause_key c) = false <->
     map Z.abs c = map Z.abs d) /\
  (forall (m : list Z) (clauses : list (list Z)),
     List.filter (fun c => bool_decide (map Z.abs c = m))
                 (sort_by key_ltb clause_key clauses) =
     List.filter (fun c => bool_decide (map Z.abs c = m)) clauses) /\
  (forall c d, map Z.abs c = map Z.abs d ->
     sort_by key_ltb clause_key [c; d] = [c; d]).
Proof.
  split; [| split].
  - intros c d. split.
    + intros [H1 H2]. apply clause_le_antisym; now apply clause_le_of_not_ltb.
    + intros H. rewrite (clause_key_eq _ _ H). split; apply key_ltb_irrefl.
  - intros m clauses.
    pose proof (sort_by_filter key_ltb clause_key
                  (fun k => bool_decide (snd k = m)) clauses) as Hf.
    apply Hf. clear Hf.
    intros a b Hlt Ha. apply bool_decide_eq_true in Ha. apply bool_decide_eq_false.
    simpl in *. intros Hb. rewrite (clause_key_eq b a) in Hlt by congruence.
    now rewrite key_ltb_irrefl in Hlt.
  - intros c d H. simpl. now rewrite (clause_key_eq _ _ H), key_ltb_irrefl.
Qed.

(** X18: when no two different clauses have the same sequence of absolute
    values, the sort of line 76 gives one result for all the orders in
    which the clauses can come. *)
Theorem clause_order_independent_of_emission (r1 r2 : list (list Z)) :
  Permutation r1 r2 ->
  (forall c d, In c r1 -> In d r1 -> map Z.abs c = map Z.abs d -> c = d) ->
  sort_by key_ltb clause_key r1 = sort_by key_ltb clause_key r2.
Proof.
  intros Hp Hdistinct.
  apply (sorted_perm_unique clause_le); try apply sort_clauses_sorted.
  - rewrite <- (sort_by_perm key_ltb clause_key r1), Hp. apply sort_by_perm.
  - intros c d Hc Hd Hcd Hdc.
    apply (Permutation_in _ (Permutation_sym (sort_by_perm _ _ _))) in Hc, Hd.
    apply Hdistinct; try assumption. now apply clause_le_antisym.
Qed.

(** X19: when no two different literals of a clause have the same absolute
    value, the sort of line 72 gives one result for all the orders in which
    the literals can come. *)
Theorem literal_order_independent_of_emission (c1 c2 : list Z) :
  Permutation c1 c2 ->
  (forall a b, In a c1 -> In b c1 -> Z.abs a = Z.abs b -> a = b) ->
  sort_by Z.ltb Z.abs c1 = sort_by Z.ltb Z.abs c2.
Proof.
  intros Hp Hdistinct.
  apply (sorted_perm_unique lit_le); try apply sort_lits_sorted.
  - rewrite <- (sort_by_perm Z.ltb Z.abs c1), Hp. apply sort_by_perm.
  - intros a b Ha Hb Hab Hba.
    apply (Permutation_in _ (Permutation_sym (sort_by_perm _ _ _))) in Ha, Hb.
    apply Hdistinct; try assumption. unfold lit_le in *. lia.
Qed.
End CanonicalOrder.

(** ** Two runs on the same batch *)

Section TwoRuns.
Context {E : BoolAlg}.






End TwoRuns.


(** ** The further properties on the reference engine *)

(** The message of the assertion on [reordered_batch]. *)
Lemma violation_names_first_offender_witness :
  exists pre post, reordered_batch = pre ++ [2; 1] :: post /\ pre <> [] /\
    Forall (fun c => magnitudes c = [1; 2]) pre /\ magnitudes [2; 1] <> [1; 2].
Proof.
  refine (proj2 (proj2 (violation_names_first_offender (E := Reference.engine)
                          reordered_batch [] [2; 1] [1; 2] _))).
  vm_compute. reflexivity.
Defined.

(** The three variables of the example are allocated by its first cube. *)
Lemma allocation_ends_with_first_cube_witness :
  exists log var_map cubes_expr first_expr,
    encode_cubes (E := Reference.engine) example_batch =
      (log, inr (var_map, cubes_expr)) /\
    encode_cubes [hd [] example_batch] = (log, inr (var_map, first_expr)).
Proof.
  apply (allocation_ends_with_first_cube (E := Reference.engine) example_batch).
  - discriminate.
  - repeat constructor.
Defined.

(** The example and the batch with other signs are validated and allocated
    alike. *)
Lemma validation_and_allocation_ignore_signs_witness :
  (check_cubes (E := Reference.engine) example_batch = ([], inr tt) <->
   check_cubes (E := Reference.engine) [[-1; -2; -3]; [1; 2; 3]] = ([], inr tt)) /\
  exists log var_map cubes_expr cubes_expr',
    encode_cubes (E := Reference.engine) example_batch =
      (log, inr (var_map, cubes_expr)) /\
    encode_cubes [[-1; -2; -3]; [1; 2; 3]] = (log, inr (var_map, cubes_expr')).
Proof.
  apply (validation_and_allocation_ignore_signs (E := Reference.engine)
           example_batch [[-1; -2; -3]; [1; 2; 3]]).
  reflexivity.
Defined.

(** With a literal map that has lost its handles, the first literal raises
    [KeyError] with its own number. *)
Lemma cnf_to_clauses_first_error_witness :
  cnf_to_clauses (E := Reference.lost_handles) (Reference.r_var "x" 1) =
    ([CallEncodeCnf (E := Reference.lost_handles) (Reference.r_var "x" 1)],
     inl (KeyError (Reference.var_code ("x"%string, 1)))) /\
  exists pre lit post,
    concat (snd (encode_cnf (BoolAlg := Reference.lost_handles)
                   (Reference.r_var "x" 1))) = pre ++ lit :: post /\
    lit_result (E := Reference.lost_handles) ∅ lit =
      inl (KeyError (Reference.var_code ("x"%string, 1))) /\
    Reference.var_code ("x"%string, 1) = Z.abs lit.
Proof.
  assert (cnf_to_clauses (E := Reference.lost_handles) (Reference.r_var "x" 1) =
          ([CallEncodeCnf (E := Reference.lost_handles) (Reference.r_var "x" 1)],
           inl (KeyError (Reference.var_code ("x"%string, 1))))) as H.
  { vm_compute. reflexivity. }
  split; [exact H |].
  destruct (cnf_to_clauses_first_error (E := Reference.lost_handles) _ _ _ H)
    as [(Hf & _) | (_ & _ & pre & lit & post & Heq & _ & Hl & Hk)].
  - discriminate Hf.
  - exists pre, lit, post. split; [exact Heq |]. split; [exact Hl |].
    exact (proj1 (Hk _ eq_refl)).
Defined.

(** The two clauses of the example's CNF come out as two clauses of three
    literals. *)
Lemma cnf_to_clauses_keeps_every_clause_witness :
  length [[-1; -2; 3]; [-1; 2; -3]] =
    length (snd (encode_cnf (BoolAlg := Reference.engine)
                   (to_cnf (Not (Or (map cube_expr example_batch)))))) /\
  Permutation (map length [[-1; -2; 3]; [-1; 2; -3]])
    (map (@length Z) (snd (encode_cnf (BoolAlg := Reference.engine)
                             (to_cnf (Not (Or (map cube_expr example_batch))))))).
Proof.
  apply (cnf_to_clauses_keeps_every_clause (E := Reference.engine)
           (to_cnf (Not (Or (map cube_expr example_batch))))
           (calls (cnf_to_clauses (to_cnf (Not (Or (map cube_expr example_batch))))))).
  vm_compute. reflexivity.
Defined.

(** With an engine that denies every shape, the example stops at the DNF
    assertion, after the three allocations. *)
Lemma shape_assertions_stop_the_run_witness :
  backdoor_to_clauses (E := Reference.no_shape)
      (O := Reference.same_cover Reference.no_shape) example_batch =
    ([CallExprvar "x" 1; CallExprvar "x" 2; CallExprvar "x" 3],
     inl (AssertionError None)) /\
  backdoor_to_clauses (E := Reference.no_shape)
      (O := Reference.same_cover Reference.no_shape) example_batch =
    (calls (cubes_to_dnf (E := Reference.no_shape) example_batch),
     inl (AssertionError None)).
Proof.
  split; [vm_compute; reflexivity |].
  refine (proj1 (proj1 (shape_assertions_stop_the_run (E := Reference.no_shape)
                   (O := Reference.same_cover Reference.no_shape) example_batch _ _) _)).
  - discriminate.
  - repeat constructor.
  - reflexivity.
Defined.

(** The DNF of a batch with the literal 0. *)
Lemma cubes_to_dnf_means_some_cube_witness :
  outcome (cubes_to_dnf (E := Reference.engine) zero_batch) =
    inr (Or (map cube_expr zero_batch)) /\
  forall rho,
    Reference.r_eval (env rho) (Or (map cube_expr zero_batch)) = cubes_hold rho zero_batch.
Proof.
  split; [vm_compute; reflexivity |].
  apply (cubes_to_dnf_means_some_cube (E := Reference.engine) Reference.r_eval zero_batch
           (calls (cubes_to_dnf zero_batch))).
  vm_compute. reflexivity.
Defined.

(** The clauses of the example's CNF. *)
Lemma cnf_to_clauses_means_the_cnf_witness :
  outcome (cnf_to_clauses (E := Reference.engine)
             (to_cnf (Not (Or (map cube_expr example_batch))))) =
    inr [[-1; -2; 3]; [-1; 2; -3]] /\
  forall rho,
    clauses_hold rho [[-1; -2; 3]; [-1; 2; -3]] =
    Reference.r_eval (env rho) (to_cnf (Not (Or (map cube_expr example_batch)))).
Proof.
  split; [vm_compute; reflexivity |].
  apply (cnf_to_clauses_means_the_cnf (E := Reference.engine) Reference.r_eval
           Reference.r_support (to_cnf (Not (Or (map cube_expr example_batch))))
           (calls (cnf_to_clauses (to_cnf (Not (Or (map cube_expr example_batch))))))).
  - vm_compute. reflexivity.
  - intros n i Hin. vm_compute in Hin.
    repeat (destruct Hin as [Hin | Hin]; [injection Hin as <- <-; lia |]).
    destruct Hin.
Defined.

(** The negative literal of variable 0 comes out as 0. *)
Lemma index_zero_loses_polarity_witness :
  decode_lit (E := Reference.engine) {[1 := Reference.r_var "x" 0]} [] (-1) =
    ([], inr ([] ++ [0])) /\
  (-1 < 0 -> forall rho,
     lit_holds rho 0 =
     negb (engine_lit Reference.r_eval (env rho) {[1 := Reference.r_var "x" 0]} (-1))).
Proof.
  apply (index_zero_loses_polarity (E := Reference.engine) Reference.r_eval
           Reference.r_support {[1 := Reference.r_var "x" 0]} [] (-1) "x").
  reflexivity.
Defined.

(** No 0 in the output of the example. *)
Lemma output_literals_nonzero_witness :
  Forall (Forall (fun lit => lit <> 0)) [[-1; -2; 3]; [-1; 2; -3]].
Proof.
  apply (output_literals_nonzero (E := Reference.engine) Reference.r_support
           example_batch (calls (backdoor_to_clauses example_batch))).
  - repeat constructor; lia.
  - vm_compute. reflexivity.
Defined.

(** Sorting the output of the example's CNF again. *)
Lemma canonical_output_is_fixed_point_witness :
  sort_by key_ltb clause_key [[-1; -2; 3]; [-1; 2; -3]] = [[-1; -2; 3]; [-1; 2; -3]] /\
  Forall (fun c => sort_by Z.ltb Z.abs c = c) [[-1; -2; 3]; [-1; 2; -3]].
Proof.
  apply (canonical_output_is_fixed_point (E := Reference.engine)
           (to_cnf (Not (Or (map cube_expr example_batch))))
           (calls (cnf_to_clauses (to_cnf (Not (Or (map cube_expr example_batch))))))).
  vm_compute. reflexivity.
Defined.

(** Two clauses over different variables, in both orders. *)
Lemma clause_order_independent_of_emission_witness :
  sort_by key_ltb clause_key [[1; -2]; [3]] = sort_by key_ltb clause_key [[3]; [1; -2]].
Proof.
  apply (clause_order_independent_of_emission [[1; -2]; [3]] [[3]; [1; -2]]).
  - apply perm_swap.
  - intros c d [<- | [<- | []]] [<- | [<- | []]] H; (reflexivity || discriminate).
Defined.

(** Three literals over different variables, in two orders. *)
Lemma literal_order_independent_of_emission_witness :
  sort_by Z.ltb Z.abs [3; -1; 2] = sort_by Z.ltb Z.abs [-1; 3; 2].
Proof.
  apply (literal_order_independent_of_emission [3; -1; 2] [-1; 3; 2]).
  - apply perm_swap.
  - intros a b [<- | [<- | [<- | []]]] [<- | [<- | [<- | []]]] H;
      (reflexivity || discriminate).
Defined.

(** The example returns a clause list. *)
Lemma backdoor_to_clauses_returns_witness :
  exists l cls, backdoor_to_clauses (E := Reference.engine) example_batch = (l, inr cls).
Proof.
  apply (backdoor_to_clauses_returns (E := Reference.engine) Reference.r_support
           example_batch (Or (map cube_expr example_batch))).
  - discriminate.
  - repeat constructor.
  - reflexivity.
  - reflexivity.
  - reflexivity.
Defined.

(** ** Two runs on the reference engine *)




(** The key of line 72 ties a literal with its negation: the clause made
    for the cube [[1; -1]] holds both, in the order in which [encode_cnf]
    lists them. *)
Example same_batch_two_literal_orders :
  outcome (backdoor_to_clauses (E := Reference.engine) (O := Reference.minimizer)
             [[1; -1]]) = inr [[-1; 1]] /\
  outcome (E := reemit Reference.engine Reference.r_encode_cnf_rev)
          (backdoor_to_clauses
             (E := reemit Reference.engine Reference.r_encode_cnf_rev)
             (O := same_minimizer Reference.r_encode_cnf_rev Reference.minimizer)
             [[1; -1]]) = inr [[1; -1]].
Proof. split; vm_compute; reflexivity. Qed.

